(** * met-earth: the solar-system scene of [js/script.js]

    A shallow embedding of the scene construction ([init], [createSolarSystem],
    [createAsteroids], [createAsteroidMesh]) and of the per-frame driver
    ([animate]), followed by the properties of the animation model.

    Modelling conventions.
    - JavaScript numbers are real numbers ([R]); IEEE rounding is outside the
      model.  A property that is absent from an object literal (it reads as
      [undefined]) is [None]; a number that would be [NaN] is [None] too.
    - The three.js scene graph is a store of [Object3D] nodes addressed by
      allocation index, so that two bodies holding the same pivot really share
      one node.
    - [Math.random] is an oracle: its n-th call returns [random n]; the state
      counts the calls made so far.
    - The vertex buffer that three.js computes for [IcosahedronGeometry(size, 1)]
      is a parameter, [icosahedron size]. *)

From Stdlib Require Import Reals Lra Lia ZArith.
From stdpp Require Import list strings.

Local Open Scope R_scope.

(** ** Data model *)

Definition SOLAR_SYSTEM_SCALE : R := 0.5.

(** A body descriptor.  [radius], [distance], [color] and [emissive] are absent
    from some of the object literals of the program. *)
Record Data := mkData {
  name : string;
  radius : option R;
  distance : option R;
  color : option Z;
  orbitSpeed : R;
  rotationSpeed : R;
  emissive : option Z;
  isAsteroid : bool
}.

Definition Sun : Data :=
  {| name := "Sun"; radius := Some 3.5; distance := Some 0;
     color := Some 0xFFD700%Z; orbitSpeed := 0; rotationSpeed := 0.005;
     emissive := Some 0xFFE040%Z; isAsteroid := false |}.

Definition Earth : Data :=
  {| name := "Earth"; radius := Some 1.0; distance := Some 11;
     color := Some 0x0077FF%Z; orbitSpeed := 0.018; rotationSpeed := 0.03;
     emissive := None; isAsteroid := false |}.

Definition solarData : list Data := [Sun; Earth].

Record Vector3 := vec { vx : R; vy : R; vz : R }.

Inductive Geometry :=
| SphereGeometry (r : option R) (widthSegments heightSegments : nat)
| IcosahedronGeometry (positions : list R)
| BufferGeometry (points : list Vector3).

Inductive Material :=
| MeshBasicMaterial (color emissive : option Z)
| MeshPhongMaterial (color : option Z) (specular : option Z) (shininess : Z)
    (flatShading : bool)
| LineBasicMaterial (color : Z) (linewidth : Z).

Inductive Kind :=
| Light
| Mesh (g : Geometry) (m : Material)
| Group
| LineLoop (g : Geometry) (m : Material).

Inductive Parent := NoParent | SceneRoot | Node (id : nat).

(** A scene-graph node.  Only [position.x], [rotation.x] and [rotation.y] are
    ever written by the program; the other coordinates keep their default 0,
    and every scale stays 1. *)
Record Object3D := mkObject {
  kind : Kind;
  obj_name : string;
  position_x : option R;
  rotation_x : R;
  rotation_y : R;
  parent : Parent
}.

(** An entry of the [planets] registry: [{ mesh, orbitGroup, data }], the two
    nodes held by reference. *)
Record Body := mkBody {
  mesh : nat;
  orbitGroup : nat;
  data : Data
}.

Record State := mkState {
  objects : list Object3D;
  planets : list Body;
  target : option Vector3;
  rng : nat;
  console : list string
}.

(** [data.distance > 0]: [undefined > 0] is false. *)
Definition gt0 (v : option R) : bool :=
  match v with
  | Some d => if Rlt_dec 0 d then true else false
  | None => false
  end.

Definition isEarth (p : Body) : bool := String.eqb (name (data p)) "Earth".

(** ** World transforms (three.js [Object3D.getWorldPosition]) *)

Definition rotateY (a : R) (p : Vector3) : Vector3 :=
  vec (vx p * cos a + vz p * sin a) (vy p) (- vx p * sin a + vz p * cos a).

Definition rotateX (a : R) (p : Vector3) : Vector3 :=
  vec (vx p) (vy p * cos a - vz p * sin a) (vy p * sin a + vz p * cos a).

(** Euler order XYZ with [rotation.z = 0]: the matrix is Rx * Ry. *)
Definition applyEuler (o : Object3D) (p : Vector3) : Vector3 :=
  rotateX (rotation_x o) (rotateY (rotation_y o) p).

Definition translateX (x : R) (p : Vector3) : Vector3 :=
  vec (vx p + x) (vy p) (vz p).

(** The point [p] of the local frame of node [id], carried through the
    ancestor chain up to the scene root. *)
Fixpoint localToWorld (objs : list Object3D) (fuel : nat) (id : nat)
    (p : Vector3) : option Vector3 :=
  match fuel with
  | O => None
  | S fuel' =>
    match objs !! id with
    | None => None
    | Some o =>
      match position_x o with
      | None => None
      | Some x =>
        let q := translateX x (applyEuler o p) in
        match parent o with
        | Node pid => localToWorld objs fuel' pid q
        | SceneRoot | NoParent => Some q
        end
      end
    end
  end.

Definition getWorldPosition (st : State) (id : nat) : option Vector3 :=
  localToWorld (objects st) (length (objects st)) id (vec 0 0 0).

(** [node.rotation.y += a]. *)
Definition addRotationY (a : R) (o : Object3D) : Object3D :=
  {| kind := kind o; obj_name := obj_name o; position_x := position_x o;
     rotation_x := rotation_x o; rotation_y := rotation_y o + a;
     parent := parent o |}.

Definition rotate_y (id : nat) (a : R) (st : State) : State :=
  {| objects := alter (addRotationY a) id (objects st);
     planets := planets st; target := target st; rng := rng st;
     console := console st |}.

Definition rotationY (st : State) (id : nat) : option R :=
  rotation_y <$> objects st !! id.

(** A random source and a vertex buffer to run the program on, for the
    concrete instances at the end. *)
Definition sampleRandom (n : nat) : R := if Nat.even n then 0.25 else 0.75.

Definition sampleBuffer (size : R) : list R :=
  [size; 0; 0; 0; size; 0; 0; 0; size].

Section Scene.

(** The n-th value returned by [Math.random()]. *)
Variable random : nat -> R.

(** [new THREE.IcosahedronGeometry(size, 1).attributes.position.array]. *)
Variable icosahedron : R -> list R.

(** ** Scene construction *)

(** [createBody]: the mesh is allocated first, its pivot next. *)
Definition createBody (d : Data) (st : State) : Body * State :=
  let geometry :=
    SphereGeometry ((fun r => r * SOLAR_SYSTEM_SCALE) <$> radius d) 32 32 in
  let material :=
    if String.eqb (name d) "Sun"
    then MeshBasicMaterial (color d) (emissive d)
    else MeshPhongMaterial (color d) (Some 0x333333%Z) 15 false in
  let m := length (objects st) in
  let g := S m in
  let meshNode :=
    {| kind := Mesh geometry material; obj_name := name d;
       position_x := distance d; rotation_x := 0; rotation_y := 0;
       parent := Node g |} in
  let groupNode :=
    {| kind := Group; obj_name := ""; position_x := Some 0; rotation_x := 0;
       rotation_y := random (rng st) * PI * 2; parent := SceneRoot |} in
  ({| mesh := m; orbitGroup := g; data := d |},
   {| objects := objects st ++ [meshNode; groupNode];
      planets := planets st; target := target st; rng := S (rng st);
      console := console st |}).

Definition segments : nat := 64.

(** The points pushed by [for (let i = 0; i <= segments; i++)]. *)
Definition orbitPoints (r : R) : list Vector3 :=
  (fun i : nat =>
     let angle := (INR i / INR segments) * PI * 2 in
     vec (r * cos angle) 0 (r * sin angle)) <$> seq 0 (S segments).

Definition orbitLine (r : R) : Object3D :=
  {| kind := LineLoop (BufferGeometry (orbitPoints r))
               (LineBasicMaterial 0x444444%Z 1);
     obj_name := ""; position_x := Some 0; rotation_x := PI / 2;
     rotation_y := 0; parent := SceneRoot |}.

Definition push_body (b : Body) (st : State) : State :=
  {| objects := objects st; planets := planets st ++ [b];
     target := target st; rng := rng st; console := console st |}.

Definition scene_add (o : Object3D) (st : State) : State :=
  {| objects := objects st ++ [o]; planets := planets st;
     target := target st; rng := rng st; console := console st |}.

(** The body of [solarData.forEach(data => ...)]. *)
Definition buildEntry (st : State) (d : Data) : State :=
  let '(body, st1) := createBody d st in
  let st2 := push_body body st1 in
  match distance d with
  | Some r => if Rlt_dec 0 r then scene_add (orbitLine r) st2 else st2
  | None => st2
  end.

(** The deformation loop of [createAsteroidMesh].  [positions.length / 3] need
    not be an integer: [i < vertexCount] holds for the first
    ceil(length / 3) values of [i]; a write past the end of a typed array is
    dropped, as is [alter] on a list. *)
Definition vertexCount (positions : list R) : nat :=
  ((length positions + 2) / 3)%nat.

Definition displace (size : R) (c : nat) : R := (random c - 0.5) * 0.1 * size.

Definition deformVertex (size : R) (c0 : nat) (positions : list R) (i : nat)
    : list R :=
  let index := (i * 3)%nat in
  let c := (c0 + i * 3)%nat in
  let p1 := alter (fun v => v + displace size c) index positions in
  let p2 := alter (fun v => v + displace size (c + 1)) (index + 1)%nat p1 in
  alter (fun v => v + displace size (c + 2)) (index + 2)%nat p2.

Definition deform (size : R) (c0 : nat) (positions : list R) : list R :=
  foldl (deformVertex size c0) positions (seq 0 (vertexCount positions)).

Definition createAsteroidMesh (clr : Z) (size : R) (st : State)
    : Object3D * State :=
  let base := icosahedron size in
  let positions := deform size (rng st) base in
  ({| kind := Mesh (IcosahedronGeometry positions)
                (MeshPhongMaterial (Some clr) None 5 true);
      obj_name := ""; position_x := Some 0; rotation_x := 0; rotation_y := 0;
      parent := NoParent |},
   {| objects := objects st; planets := planets st; target := target st;
      rng := (rng st + 3 * vertexCount base)%nat; console := console st |}).

Definition meteorName : string := "Halley".

Definition Halley : Data :=
  {| name := meteorName; radius := None; distance := None; color := None;
     orbitSpeed := 0.03; rotationSpeed := 0.08; emissive := None;
     isAsteroid := true |}.

Definition createAsteroids (earthData : Body) (st : State) : State :=
  let earthOrbitGroup := orbitGroup earthData in
  let '(asteroid0, st1) := createAsteroidMesh 0xADD8E6%Z 0.2 st in
  let asteroid :=
    {| kind := kind asteroid0; obj_name := obj_name asteroid0;
       position_x := (fun d => d + 1.8) <$> distance (data earthData);
       rotation_x := rotation_x asteroid0; rotation_y := rotation_y asteroid0;
       parent := Node earthOrbitGroup |} in
  let id := length (objects st1) in
  {| objects := objects st1 ++ [asteroid];
     planets := planets st1
                ++ [{| mesh := id; orbitGroup := earthOrbitGroup;
                       data := Halley |}];
     target := target st1; rng := rng st1;
     console := console st1
                ++ ["One meteor named 'Halley' added orbiting with Earth's group."]
  |}.

Definition createSolarSystem (catalog : list Data) (st : State) : State :=
  let st1 := foldl buildEntry st catalog in
  match find isEarth (planets st1) with
  | Some earth => createAsteroids earth st1
  | None => st1
  end.

Definition set_target (t : option Vector3) (st : State) : State :=
  {| objects := objects st; planets := planets st; target := t;
     rng := rng st; console := console st |}.

(** The state [init] starts from: the two lights are in the scene, the
    registry is empty and [controls.target] is the origin. *)
Definition light (nm : string) : Object3D :=
  {| kind := Light; obj_name := nm; position_x := Some 0; rotation_x := 0;
     rotation_y := 0; parent := SceneRoot |}.

Definition emptyScene : State :=
  {| objects := [light "ambientLight"; light "sunLight"]; planets := [];
     target := Some (vec 0 0 0); rng := 0; console := [] |}.

Definition retarget (st : State) : State :=
  match find isEarth (planets st) with
  | Some earthBody => set_target (getWorldPosition st (mesh earthBody)) st
  | None => st
  end.

Definition init (catalog : list Data) : State :=
  retarget (createSolarSystem catalog emptyScene).

(** ** The animation driver *)

(** The body of [planets.forEach(body => ...)]. *)
Definition updateBody (delta : R) (st : State) (body : Body) : State :=
  let d := data body in
  let st1 := rotate_y (mesh body) (rotationSpeed d * delta * 5) st in
  if gt0 (distance d)
  then rotate_y (orbitGroup body) (orbitSpeed d * delta * 5) st1
  else st1.

(** One call of [animate] with [clock.getDelta() = delta].  [target] is the
    value copied into [controls.target]; the calls [controls.update()] and
    [renderer.render] that follow belong to three.js, do not write the scene
    graph, and are not modelled. *)
Definition animate (delta : R) (st : State) : State :=
  retarget (foldl (updateBody delta) st (planets st)).

(** The frames driven by [requestAnimationFrame], one per delta. *)
Definition run (deltas : list R) (st : State) : State :=
  foldl (fun s d => animate d s) st deltas.


(** ** Specification-level notions used by the statements *)

(** What one execution of the [forEach] callback for [b] adds to
    [rotation.y] of node [i]. *)
Definition increment (delta : R) (i : nat) (b : Body) : R :=
  (if decide (mesh b = i) then rotationSpeed (data b) * delta * 5 else 0)
  + (if gt0 (distance (data b)) && bool_decide (orbitGroup b = i)
     then orbitSpeed (data b) * delta * 5 else 0).

Fixpoint total (delta : R) (i : nat) (bs : list Body) : R :=
  match bs with
  | [] => 0
  | b :: bs' => increment delta i b + total delta i bs'
  end.

Definition is_mesh (k : Kind) : Prop :=
  match k with Mesh _ _ => True | _ => False end.

Definition is_line (k : Kind) : Prop :=
  match k with LineLoop _ _ => True | _ => False end.

(** The shape of the scene graph that construction establishes and that no
    frame disturbs. *)
Record wf (st : State) : Prop := {
  wf_mesh : forall b, b ∈ planets st ->
    exists o, objects st !! mesh b = Some o /\ is_mesh (kind o)
      /\ parent o = Node (orbitGroup b)
      /\ (forall d, distance (data b) = Some d -> position_x o = Some d);
  wf_group : forall b, b ∈ planets st ->
    exists g, objects st !! orbitGroup b = Some g /\ kind g = Group
      /\ position_x g = Some 0 /\ rotation_x g = 0 /\ parent g = SceneRoot;
  wf_nodup : NoDup (mesh <$> planets st);
  wf_share : forall b b', b ∈ planets st -> b' ∈ planets st ->
    orbitGroup b = orbitGroup b' ->
    b = b' \/ distance (data b) = None \/ distance (data b') = None;
  wf_line : forall i o, objects st !! i = Some o -> is_line (kind o) ->
    position_x o = Some 0 /\ parent o = SceneRoot
}.

(** The world-space vertices of the line object stored at [i]. *)
Definition lineWorldVertices (st : State) (i : nat) : option (list (option Vector3)) :=
  match objects st !! i with
  | Some o =>
    match kind o with
    | LineLoop (BufferGeometry pts) _ =>
      Some (localToWorld (objects st) (length (objects st)) i <$> pts)
    | _ => None
    end
  | None => None
  end.

(** States with the same registry whose nodes differ in [rotation.y] only. *)
Definition same_frame (st st' : State) : Prop :=
  planets st' = planets st
  /\ forall i, exists a, objects st' !! i = addRotationY a <$> objects st !! i.

(** The scene that [createSolarSystem] builds from [solarData]: nodes 0 and 1
    are the lights, 2 and 3 the Sun and its pivot, 4 and 5 Earth and its
    pivot, 6 Earth's orbit line and 7 the meteor. *)
Definition solarScene : State :=
  {| objects :=
       [light "ambientLight"; light "sunLight";
        {| kind := Mesh (SphereGeometry (Some (3.5 * SOLAR_SYSTEM_SCALE)) 32 32)
                     (MeshBasicMaterial (color Sun) (emissive Sun));
           obj_name := "Sun"; position_x := Some 0; rotation_x := 0;
           rotation_y := 0; parent := Node 3 |};
        {| kind := Group; obj_name := ""; position_x := Some 0;
           rotation_x := 0; rotation_y := random 0 * PI * 2;
           parent := SceneRoot |};
        {| kind := Mesh (SphereGeometry (Some (1.0 * SOLAR_SYSTEM_SCALE)) 32 32)
                     (MeshPhongMaterial (color Earth) (Some 0x333333%Z) 15 false);
           obj_name := "Earth"; position_x := Some 11; rotation_x := 0;
           rotation_y := 0; parent := Node 5 |};
        {| kind := Group; obj_name := ""; position_x := Some 0;
           rotation_x := 0; rotation_y := random 1 * PI * 2;
           parent := SceneRoot |};
        orbitLine 11;
        {| kind := Mesh (IcosahedronGeometry (deform 0.2 2 (icosahedron 0.2)))
                     (MeshPhongMaterial (Some 0xADD8E6%Z) None 5 true);
           obj_name := ""; position_x := Some (11 + 1.8); rotation_x := 0;
           rotation_y := 0; parent := Node 5 |}];
     planets := [mkBody 2 3 Sun; mkBody 4 5 Earth; mkBody 7 5 Halley];
     target := Some (vec 0 0 0);
     rng := (2 + 3 * vertexCount (icosahedron 0.2))%nat;
     console := ["One meteor named 'Halley' added orbiting with Earth's group."]
  |}.

(** The radius of the orbit line that [buildEntry] adds for an entry, if it
    adds one. *)
Definition ringRadius (d : Data) : option R :=
  match distance d with
  | Some r => if Rlt_dec 0 r then Some r else None
  | None => None
  end.

Definition ringRadii (catalog : list Data) : list R := omap ringRadius catalog.

Definition isLine (o : Object3D) : bool :=
  match kind o with LineLoop _ _ => true | _ => false end.

(** [isEarth] on a descriptor. *)
Definition namedEarth (d : Data) : bool := String.eqb (name d) "Earth".

(** Total time elapsed over a sequence of frames. *)
Definition elapsed (deltas : list R) : R := foldr Rplus 0 deltas.

(** A second catalog for the concrete instances: a planet before the
    tracked one, and a second entry named Earth after it. *)
Definition Mars : Data :=
  {| name := "Mars"; radius := Some 0.6; distance := Some 16;
     color := Some 0xC1440E%Z; orbitSpeed := 0.01; rotationSpeed := 0.02;
     emissive := None; isAsteroid := false |}.

Definition otherCatalog : list Data :=
  [Sun; Mars; Earth;
   {| name := "Earth"; radius := Some 1.0; distance := Some 20;
      color := None; orbitSpeed := 0.004; rotationSpeed := 0.01;
      emissive := None; isAsteroid := false |}].

(** ** The effect of a frame on the scene graph *)

Lemma gt0_true v : gt0 v = true <-> exists d, v = Some d /\ 0 < d.
Proof.
  unfold gt0. destruct v as [d|].
  - destruct (Rlt_dec 0 d); split; intros H; try done.
    + by exists d.
    + destruct H as (d' & [= <-] & Hd). done.
  - split; [done | intros (d & H & _); done].
Qed.

Lemma gt0_zero : gt0 (Some 0) = false.
Proof. unfold gt0. destruct (Rlt_dec 0 0); [lra | done]. Qed.

Lemma addRotationY_0 o : addRotationY 0 o = o.
Proof. destruct o. unfold addRotationY. simpl. f_equal. lra. Qed.

Lemma addRotationY_add a b o :
  addRotationY a (addRotationY b o) = addRotationY (b + a) o.
Proof. unfold addRotationY. simpl. f_equal. lra. Qed.

Lemma addRotationY_fmap_0 (x : option Object3D) : addRotationY 0 <$> x = x.
Proof. destruct x; simpl; [by rewrite addRotationY_0 | done]. Qed.

Lemma updateBody_planets delta st b :
  planets (updateBody delta st b) = planets st.
Proof. unfold updateBody. by destruct (gt0 _). Qed.

Lemma updateBody_target delta st b :
  target (updateBody delta st b) = target st.
Proof. unfold updateBody. by destruct (gt0 _). Qed.

Lemma updateBody_lookup delta st b i :
  objects (updateBody delta st b) !! i
  = addRotationY (increment delta i b) <$> objects st !! i.
Proof.
  unfold updateBody, increment.
  destruct (gt0 (distance (data b))); simpl; rewrite ?list_lookup_alter;
    repeat (case_decide || case_bool_decide); simplify_eq;
    try congruence;
    try match goal with H : mesh b = orbitGroup b |- _ => rewrite <- H end;
    (destruct (objects st !! _) as [o|]; simpl; [|done]);
    f_equal; destruct o; unfold addRotationY; simpl; f_equal; lra.
Qed.

Lemma forEach_planets delta bs st :
  planets (foldl (updateBody delta) st bs) = planets st.
Proof.
  revert st. induction bs as [|b bs IH]; intros st; simpl; [done|].
  by rewrite IH, updateBody_planets.
Qed.

Lemma forEach_target delta bs st :
  target (foldl (updateBody delta) st bs) = target st.
Proof.
  revert st. induction bs as [|b bs IH]; intros st; simpl; [done|].
  by rewrite IH, updateBody_target.
Qed.

Lemma forEach_lookup delta bs st i :
  objects (foldl (updateBody delta) st bs) !! i
  = addRotationY (total delta i bs) <$> objects st !! i.
Proof.
  revert st. induction bs as [|b bs IH]; intros st; simpl.
  - by rewrite addRotationY_fmap_0.
  - rewrite IH, updateBody_lookup.
    destruct (objects st !! i); simpl; [|done].
    by rewrite addRotationY_add.
Qed.

Lemma retarget_objects st : objects (retarget st) = objects st.
Proof. unfold retarget. by destruct (find _ _). Qed.

Lemma retarget_planets st : planets (retarget st) = planets st.
Proof. unfold retarget. by destruct (find _ _). Qed.

Lemma animate_planets delta st : planets (animate delta st) = planets st.
Proof. unfold animate. by rewrite retarget_planets, forEach_planets. Qed.

Lemma animate_lookup delta st i :
  objects (animate delta st) !! i
  = addRotationY (total delta i (planets st)) <$> objects st !! i.
Proof. unfold animate. by rewrite retarget_objects, forEach_lookup. Qed.

Lemma animate_length delta st :
  length (objects (animate delta st)) = length (objects st).
Proof.
  destruct (Nat.lt_trichotomy (length (objects (animate delta st)))
              (length (objects st))) as [H|[H|H]]; [|done|].
  - apply lookup_lt_is_Some_2 in H as Hs.
    pose proof (animate_lookup delta st (length (objects (animate delta st)))) as E.
    rewrite lookup_ge_None_2 in E by lia.
    destruct Hs as [o Ho]. rewrite Ho in E. done.
  - apply lookup_lt_is_Some_2 in H as [o Ho].
    pose proof (animate_lookup delta st (length (objects st))) as E.
    rewrite Ho in E. rewrite lookup_ge_None_2 in E by lia. done.
Qed.

Lemma run_planets ds st : planets (run ds st) = planets st.
Proof.
  revert st. induction ds as [|d ds IH]; intros st; simpl; [done|].
  by rewrite IH, animate_planets.
Qed.

Lemma run_length ds st : length (objects (run ds st)) = length (objects st).
Proof.
  revert st. induction ds as [|d ds IH]; intros st; simpl; [done|].
  by rewrite IH, animate_length.
Qed.

(** A run only ever adds to [rotation.y]. *)
Lemma run_lookup ds st i :
  exists a, objects (run ds st) !! i = addRotationY a <$> objects st !! i.
Proof.
  revert st. induction ds as [|d ds IH]; intros st; simpl.
  - exists 0. by rewrite addRotationY_fmap_0.
  - destruct (IH (animate d st)) as [a Ha].
    exists (total d i (planets st) + a).
    rewrite Ha, animate_lookup.
    destruct (objects st !! i); simpl; [|done].
    by rewrite addRotationY_add.
Qed.

(** ** The shape of the scene graph is invariant *)

Lemma same_frame_animate delta st : same_frame st (animate delta st).
Proof.
  split; [apply animate_planets|].
  intros i. eexists. apply animate_lookup.
Qed.

Lemma same_frame_run ds st : same_frame st (run ds st).
Proof. split; [apply run_planets | apply run_lookup]. Qed.

Lemma same_frame_retarget st : same_frame st (retarget st).
Proof.
  split; [apply retarget_planets|].
  intros i. exists 0. by rewrite retarget_objects, addRotationY_fmap_0.
Qed.

Lemma same_frame_lookup st st' i o :
  same_frame st st' -> objects st !! i = Some o ->
  exists a, objects st' !! i = Some (addRotationY a o).
Proof.
  intros [_ H] Ho. destruct (H i) as [a Ha]. exists a. by rewrite Ha, Ho.
Qed.

Lemma same_frame_lookup_inv st st' i o' :
  same_frame st st' -> objects st' !! i = Some o' ->
  exists a o, objects st !! i = Some o /\ o' = addRotationY a o.
Proof.
  intros [_ H] Ho. destruct (H i) as [a Ha]. rewrite Ho in Ha.
  destruct (objects st !! i) as [o|]; simpl in Ha; [|done].
  exists a, o. split; congruence.
Qed.

Lemma wf_same_frame st st' : wf st -> same_frame st st' -> wf st'.
Proof.
  intros W F. pose proof F as [P _]. split.
  - intros b Hb. rewrite P in Hb.
    destruct (wf_mesh _ W b Hb) as (o & Ho & Hk & Hp & Hd).
    destruct (same_frame_lookup _ _ _ _ F Ho) as [a Ha].
    exists (addRotationY a o). done.
  - intros b Hb. rewrite P in Hb.
    destruct (wf_group _ W b Hb) as (g & Hg & Hk & Hx & Hr & Hp).
    destruct (same_frame_lookup _ _ _ _ F Hg) as [a Ha].
    exists (addRotationY a g). done.
  - rewrite P. apply (wf_nodup _ W).
  - rewrite P. apply (wf_share _ W).
  - intros i o' Ho' Hl.
    destruct (same_frame_lookup_inv _ _ _ _ F Ho') as (a & o & Ho & ->).
    apply (wf_line _ W i o Ho Hl).
Qed.

Lemma wf_scene_add o st :
  wf st ->
  (is_line (kind o) -> position_x o = Some 0 /\ parent o = SceneRoot) ->
  wf (scene_add o st).
Proof.
  intros W Hline. split; simpl.
  - intros b Hb. destruct (wf_mesh _ W b Hb) as (x & Hx & H).
    exists x. split; [|done]. by apply lookup_app_l_Some.
  - intros b Hb. destruct (wf_group _ W b Hb) as (x & Hx & H).
    exists x. split; [|done]. by apply lookup_app_l_Some.
  - apply (wf_nodup _ W).
  - apply (wf_share _ W).
  - intros i x Hx Hl. apply lookup_app_Some in Hx as [Hx|[_ Hx]].
    + by apply (wf_line _ W i x).
    + apply list_lookup_singleton_Some in Hx as [_ <-]. by apply Hline.
Qed.

(** Registering a body whose mesh is a freshly allocated node. *)
Lemma wf_register st extra b o g t n c :
  wf st ->
  (length (objects st) <= mesh b)%nat ->
  (objects st ++ extra) !! mesh b = Some o ->
  is_mesh (kind o) -> parent o = Node (orbitGroup b) ->
  (forall d, distance (data b) = Some d -> position_x o = Some d) ->
  (objects st ++ extra) !! orbitGroup b = Some g ->
  kind g = Group -> position_x g = Some 0 -> rotation_x g = 0 ->
  parent g = SceneRoot ->
  (forall b', b' ∈ planets st -> orbitGroup b' = orbitGroup b ->
     distance (data b) = None \/ distance (data b') = None) ->
  (forall x, x ∈ extra -> ~ is_line (kind x)) ->
  wf {| objects := objects st ++ extra; planets := planets st ++ [b];
        target := t; rng := n; console := c |}.
Proof.
  intros W Hfresh Ho Hk Hp Hd Hg Hgk Hgx Hgr Hgp Hshare Hextra.
  split; simpl.
  - intros b' Hb'. apply elem_of_app in Hb' as [Hb'|Hb'].
    + destruct (wf_mesh _ W b' Hb') as (x & Hx & H).
      exists x. split; [|done]. by apply lookup_app_l_Some.
    + apply list_elem_of_singleton in Hb' as ->. by exists o.
  - intros b' Hb'. apply elem_of_app in Hb' as [Hb'|Hb'].
    + destruct (wf_group _ W b' Hb') as (x & Hx & H).
      exists x. split; [|done]. by apply lookup_app_l_Some.
    + apply list_elem_of_singleton in Hb' as ->. by exists g.
  - rewrite fmap_app. apply NoDup_app. split; [apply (wf_nodup _ W)|].
    split; [|apply NoDup_singleton].
    intros m Hm Hm'. simpl in Hm'. apply list_elem_of_singleton in Hm' as ->.
    apply list_elem_of_fmap in Hm as (b' & Hmb & Hb').
    destruct (wf_mesh _ W b' Hb') as (x & Hx & _).
    apply lookup_lt_Some in Hx. lia.
  - intros b1 b2 H1 H2 E.
    apply elem_of_app in H1 as [H1|H1]; apply elem_of_app in H2 as [H2|H2].
    + by apply (wf_share _ W).
    + apply list_elem_of_singleton in H2 as ->.
      destruct (Hshare b1 H1 E) as [?|?]; auto.
    + apply list_elem_of_singleton in H1 as ->.
      destruct (Hshare b2 H2 (eq_sym E)) as [?|?]; auto.
    + apply list_elem_of_singleton in H1 as ->.
      apply list_elem_of_singleton in H2 as ->. auto.
  - intros i x Hx Hl. apply lookup_app_Some in Hx as [Hx|[_ Hx]].
    + by apply (wf_line _ W i x).
    + exfalso. apply (Hextra x); [|done]. by eapply list_elem_of_lookup_2.
Qed.

Lemma wf_emptyScene : wf emptyScene.
Proof.
  split; simpl.
  - intros b Hb. by apply elem_of_nil in Hb.
  - intros b Hb. by apply elem_of_nil in Hb.
  - apply NoDup_nil_2.
  - intros b b' Hb. by apply elem_of_nil in Hb.
  - intros [|[|i]] o Ho Hl; simplify_eq/=; done.
Qed.

Lemma wf_buildEntry st d : wf st -> wf (buildEntry st d).
Proof.
  intros W.
  assert (wf (push_body (createBody d st).1 (createBody d st).2)) as W'.
  { unfold push_body, createBody. simpl.
    eapply (wf_register st _
              (mkBody (length (objects st)) (S (length (objects st))) d));
      simpl; try exact W; try lia.
    - by rewrite lookup_app_r, Nat.sub_diag by lia.
    - done.
    - done.
    - by intros r Hr.
    - rewrite lookup_app_r by lia.
      by replace (S (length (objects st)) - length (objects st))%nat
        with 1%nat by lia.
    - done.
    - done.
    - done.
    - done.
    - intros b' Hb' E. destruct (wf_group _ W b' Hb') as (x & Hx & _).
      apply lookup_lt_Some in Hx. lia.
    - intros x Hx Hl.
      apply elem_of_cons in Hx as [->|Hx]; [done|].
      apply list_elem_of_singleton in Hx as ->. done. }
  unfold buildEntry. change (createBody d st) with ((createBody d st).1, (createBody d st).2).
  cbv beta iota zeta.
  destruct (distance d) as [r|]; [|done].
  destruct (Rlt_dec 0 r); [|done].
  apply wf_scene_add; done.
Qed.

Lemma wf_catalog catalog st : wf st -> wf (foldl buildEntry st catalog).
Proof.
  revert st. induction catalog as [|d ds IH]; intros st W; simpl; [done|].
  apply IH, wf_buildEntry, W.
Qed.

Lemma wf_createAsteroids e st :
  wf st -> e ∈ planets st -> wf (createAsteroids e st).
Proof.
  intros W He. unfold createAsteroids, createAsteroidMesh. simpl.
  destruct (wf_group _ W e He) as (g & Hg & Hk & Hx & Hr & Hp).
  eapply (wf_register st _
            (mkBody (length (objects st)) (orbitGroup e) Halley));
    simpl; try exact W; try lia.
  - by rewrite lookup_app_r, Nat.sub_diag by lia.
  - done.
  - done.
  - done.
  - by apply lookup_app_l_Some.
  - done.
  - done.
  - done.
  - done.
  - auto.
  - intros x Hin Hl. apply list_elem_of_singleton in Hin as ->. done.
Qed.

Lemma find_elem_of {A} (f : A -> bool) (l : list A) x :
  find f l = Some x -> x ∈ l /\ f x = true.
Proof.
  intros H. apply find_some in H as [H1 H2]. split; [|done].
  by apply list_elem_of_In.
Qed.

Lemma wf_createSolarSystem catalog st :
  wf st -> wf (createSolarSystem catalog st).
Proof.
  intros W. unfold createSolarSystem.
  pose proof (wf_catalog catalog st W) as W1.
  destruct (find isEarth _) as [e|] eqn:E; [|done].
  apply wf_createAsteroids; [done|]. by apply find_elem_of in E as [? _].
Qed.

Lemma wf_init catalog : wf (init catalog).
Proof.
  eapply wf_same_frame; [|apply same_frame_retarget].
  apply wf_createSolarSystem, wf_emptyScene.
Qed.

Lemma wf_run catalog ds : wf (run ds (init catalog)).
Proof. eapply wf_same_frame; [apply wf_init | apply same_frame_run]. Qed.

(** ** What a frame adds to each node of a well-formed scene *)

Lemma NoDup_fmap_eq {A B} (f : A -> B) (l : list A) x y :
  NoDup (f <$> l) -> x ∈ l -> y ∈ l -> f x = f y -> x = y.
Proof.
  induction l as [|a l IH]; simpl; intros N Hx Hy E.
  - by apply elem_of_nil in Hx.
  - apply NoDup_cons in N as [Na N].
    apply elem_of_cons in Hx as [->|Hx]; apply elem_of_cons in Hy as [->|Hy].
    + done.
    + exfalso. apply Na. rewrite E. by apply list_elem_of_fmap_2.
    + exfalso. apply Na. rewrite <- E. by apply list_elem_of_fmap_2.
    + by apply IH.
Qed.

Lemma total_zero delta i bs :
  (forall b, b ∈ bs -> increment delta i b = 0) -> total delta i bs = 0.
Proof.
  induction bs as [|b bs IH]; simpl; intros H; [done|].
  rewrite (H b), IH; [lra| |].
  - intros b' Hb'. apply H. by right.
  - by left.
Qed.

Lemma total_single delta i bs b :
  NoDup bs -> b ∈ bs ->
  (forall b', b' ∈ bs -> b' <> b -> increment delta i b' = 0) ->
  total delta i bs = increment delta i b.
Proof.
  induction bs as [|a bs IH]; simpl; intros N Hb H.
  - by apply elem_of_nil in Hb.
  - apply NoDup_cons in N as [Na N].
    apply elem_of_cons in Hb as [->|Hb].
    + rewrite total_zero; [lra|].
      intros b' Hb'. apply H; [by right|]. by intros ->.
    + rewrite (H a), IH; [lra|done|done| |by left|].
      * intros b' Hb' Hne. apply H; [by right|done].
      * by intros ->.
Qed.

Lemma mesh_not_group st b b' :
  wf st -> b ∈ planets st -> b' ∈ planets st -> mesh b <> orbitGroup b'.
Proof.
  intros W Hb Hb' E.
  destruct (wf_mesh _ W b Hb) as (o & Ho & Hk & _).
  destruct (wf_group _ W b' Hb') as (g & Hg & Hgk & _).
  rewrite E, Hg in Ho. simplify_eq. by rewrite Hgk in Hk.
Qed.

Lemma spin_total delta st b :
  wf st -> b ∈ planets st ->
  total delta (mesh b) (planets st) = rotationSpeed (data b) * delta * 5.
Proof.
  intros W Hb.
  rewrite (total_single _ _ _ b); [| |done|].
  - unfold increment. rewrite decide_True by done.
    rewrite bool_decide_eq_false_2, andb_false_r; [lra|].
    intros E. by apply (mesh_not_group st b b W).
  - eapply NoDup_fmap_1, (wf_nodup _ W).
  - intros b' Hb' Hne. unfold increment.
    rewrite decide_False.
    + rewrite bool_decide_eq_false_2, andb_false_r; [lra|].
      intros E. by apply (mesh_not_group st b b' W).
    + intros E. apply Hne.
      by apply (NoDup_fmap_eq mesh (planets st)); [apply (wf_nodup _ W)| | |].
Qed.

(** The pivot of [b] is turned by [b] alone, and only when [b] revolves. *)
Lemma orbit_total delta st b :
  wf st -> b ∈ planets st -> distance (data b) <> None ->
  total delta (orbitGroup b) (planets st)
  = if gt0 (distance (data b)) then orbitSpeed (data b) * delta * 5 else 0.
Proof.
  intros W Hb Hd.
  rewrite (total_single _ _ _ b); [| |done|].
  - unfold increment. rewrite decide_False.
    + rewrite bool_decide_eq_true_2, andb_true_r by done.
      destruct (gt0 _); lra.
    + by apply (mesh_not_group st b b W).
  - eapply NoDup_fmap_1, (wf_nodup _ W).
  - intros b' Hb' Hne. unfold increment.
    rewrite decide_False by (by apply (mesh_not_group st b' b W)).
    destruct (decide (orbitGroup b' = orbitGroup b)) as [E|E].
    + destruct (wf_share _ W b' b Hb' Hb E) as [?|[Hn|?]]; [done| |done].
      rewrite Hn. simpl. lra.
    + rewrite bool_decide_eq_false_2, andb_false_r by done. lra.
Qed.

Lemma line_total delta st i o :
  wf st -> objects st !! i = Some o -> is_line (kind o) ->
  total delta i (planets st) = 0.
Proof.
  intros W Ho Hl. apply total_zero. intros b Hb. unfold increment.
  destruct (wf_mesh _ W b Hb) as (m & Hm & Hmk & _).
  destruct (wf_group _ W b Hb) as (g & Hg & Hgk & _).
  rewrite decide_False, bool_decide_eq_false_2, andb_false_r; [lra| |].
  - intros E. assert (g = o) as -> by congruence. by rewrite Hgk in Hl.
  - intros E. assert (m = o) as -> by congruence.
    destruct (kind o); done.
Qed.

Lemma rotationY_animate delta st i :
  rotationY (animate delta st) i
  = (fun r => r + total delta i (planets st)) <$> rotationY st i.
Proof.
  unfold rotationY. rewrite animate_lookup.
  by destruct (objects st !! i).
Qed.

(** ** World positions *)

Lemma zero_world o x :
  translateX x (applyEuler o (vec 0 0 0)) = vec x 0 0.
Proof.
  unfold translateX, applyEuler, rotateX, rotateY. simpl. f_equal; ring.
Qed.

Lemma pivot_world g x :
  position_x g = Some 0 -> rotation_x g = 0 ->
  translateX 0 (applyEuler g (vec x 0 0)) = rotateY (rotation_y g) (vec x 0 0).
Proof.
  intros _ Hr. unfold translateX, applyEuler, rotateX, rotateY. simpl.
  rewrite Hr, cos_0, sin_0. f_equal; ring.
Qed.

(** A node at local offset [x] under a pivot that sits at the scene origin:
    its world position is the offset turned by the pivot's [rotation.y]. *)
Lemma world_position_child objs m g o go x :
  objs !! m = Some o -> position_x o = Some x -> parent o = Node g ->
  objs !! g = Some go -> position_x go = Some 0 -> rotation_x go = 0 ->
  parent go = SceneRoot ->
  localToWorld objs (length objs) m (vec 0 0 0)
  = Some (rotateY (rotation_y go) (vec x 0 0)).
Proof.
  intros Ho Hx Hp Hg Hgx Hgr Hgp.
  assert (m <> g) as Hne by (intros ->; congruence).
  apply lookup_lt_Some in Ho as Hm. apply lookup_lt_Some in Hg as Hg'.
  destruct (length objs) as [|[|n]] eqn:E; [lia|lia|].
  cbn [localToWorld]. rewrite Ho, Hx, Hp, Hg, Hgx, Hgp.
  by rewrite zero_world, pivot_world.
Qed.

Lemma world_position st b d :
  wf st -> b ∈ planets st -> distance (data b) = Some d ->
  exists a, rotationY st (orbitGroup b) = Some a
    /\ getWorldPosition st (mesh b) = Some (rotateY a (vec d 0 0)).
Proof.
  intros W Hb Hd.
  destruct (wf_mesh _ W b Hb) as (o & Ho & _ & Hp & Hx).
  destruct (wf_group _ W b Hb) as (g & Hg & _ & Hgx & Hgr & Hgp).
  exists (rotation_y g). split; [unfold rotationY; by rewrite Hg|].
  eapply world_position_child; eauto.
Qed.

(** ** The scene built from [solarData] *)

Lemma createSolarSystem_solarData :
  createSolarSystem solarData emptyScene = solarScene.
Proof.
  unfold createSolarSystem, solarData. simpl foldl.
  unfold buildEntry. simpl.
  destruct (Rlt_dec 0 0) as [H|_]; [lra|].
  destruct (Rlt_dec 0 11) as [_|H]; [|lra].
  reflexivity.
Qed.

Lemma init_solarData_frame : same_frame solarScene (init solarData).
Proof.
  unfold init. rewrite createSolarSystem_solarData. apply same_frame_retarget.
Qed.

Lemma run_solarData_frame ds : same_frame solarScene (run ds (init solarData)).
Proof.
  destruct init_solarData_frame as [P1 L1].
  destruct (same_frame_run ds (init solarData)) as [P2 L2].
  split; [congruence|].
  intros i. destruct (L1 i) as [a Ha], (L2 i) as [b Hb].
  exists (a + b). rewrite Hb, Ha.
  destruct (objects solarScene !! i); simpl; [|done].
  by rewrite addRotationY_add.
Qed.

Lemma run_solarData_planets ds :
  planets (run ds (init solarData))
  = [mkBody 2 3 Sun; mkBody 4 5 Earth; mkBody 7 5 Halley].
Proof. by destruct (run_solarData_frame ds) as [-> _]. Qed.

(** ** Angles accumulated by the driver *)

Lemma two_frames d1 d2 st i :
  rotationY (animate d2 (animate d1 st)) i
  = (fun r => r + (total d1 i (planets st) + total d2 i (planets st)))
      <$> rotationY st i.
Proof.
  rewrite !rotationY_animate, animate_planets.
  destruct (rotationY st i); simpl; [f_equal; lra | done].
Qed.

Lemma static_pivot_run ds st b :
  wf st -> b ∈ planets st -> distance (data b) = Some 0 ->
  rotationY (run ds st) (orbitGroup b) = rotationY st (orbitGroup b).
Proof.
  revert st. induction ds as [|d ds IH]; intros st W Hb Hd; simpl; [done|].
  rewrite IH.
  - rewrite rotationY_animate, orbit_total by (done || congruence).
    rewrite Hd, gt0_zero.
    destruct (rotationY st (orbitGroup b)); simpl; [f_equal; lra | done].
  - eapply wf_same_frame; [done | apply same_frame_animate].
  - by rewrite animate_planets.
  - done.
Qed.

(** C5: angle accumulation is linear in elapsed time with the fixed
    multiplier 5.  In every state of the program, for every body of the
    registry, two driver invocations with deltas [d1] then [d2] add
    [rotationSpeed * 5 * (d1 + d2)] to the spin angle of its mesh, whatever its
    distance, and, when its distance is positive, add
    [orbitSpeed * 5 * (d1 + d2)] to the revolution angle of its pivot.  For the
    catalog [solarData] (Sun at distance 0; Earth at distance 11 with orbit
    speed 0.018 and spin speed 0.03) one invocation with delta 1.0 adds 0.09 to
    the rotation of Earth's pivot and 0.15 to the spin of Earth's mesh. *)
Theorem angle_accumulation_linear catalog ds st b d1 d2 :
  st = run ds (init catalog) -> b ∈ planets st ->
  (exists s, rotationY st (mesh b) = Some s
     /\ rotationY (animate d2 (animate d1 st)) (mesh b)
        = Some (s + rotationSpeed (data b) * 5 * (d1 + d2)))
  /\ (forall dist, distance (data b) = Some dist -> 0 < dist ->
      exists r, rotationY st (orbitGroup b) = Some r
        /\ rotationY (animate d2 (animate d1 st)) (orbitGroup b)
           = Some (r + orbitSpeed (data b) * 5 * (d1 + d2)))
  /\ (catalog = solarData -> data b = Earth ->
      exists r s, rotationY st (orbitGroup b) = Some r
        /\ rotationY (animate 1.0 st) (orbitGroup b) = Some (r + 0.09)
        /\ rotationY st (mesh b) = Some s
        /\ rotationY (animate 1.0 st) (mesh b) = Some (s + 0.15)).
Proof.
  intros -> Hb. pose proof (wf_run catalog ds) as W.
  destruct (wf_mesh _ W b Hb) as (o & Ho & _).
  destruct (wf_group _ W b Hb) as (g & Hg & _).
  assert (rotationY (run ds (init catalog)) (mesh b) = Some (rotation_y o))
    as Hs by (unfold rotationY; by rewrite Ho).
  assert (rotationY (run ds (init catalog)) (orbitGroup b)
          = Some (rotation_y g)) as Hr by (unfold rotationY; by rewrite Hg).
  split; [|split].
  - exists (rotation_y o). split; [done|].
    rewrite two_frames, !spin_total, Hs by done. simpl. f_equal. lra.
  - intros dist Hd Hpos. exists (rotation_y g). split; [done|].
    rewrite two_frames, !orbit_total, Hr by (done || congruence).
    rewrite Hd. unfold gt0. destruct (Rlt_dec 0 dist); [|done].
    simpl. f_equal. lra.
  - intros _ Hdata. exists (rotation_y g), (rotation_y o).
    repeat split; [done| |done|].
    + rewrite rotationY_animate, orbit_total, Hr by (done || by rewrite Hdata).
      rewrite Hdata. simpl. destruct (Rlt_dec 0 11); [|lra].
      simpl. f_equal. lra.
    + rewrite rotationY_animate, spin_total, Hs, Hdata by done.
      simpl. f_equal. lra.
Qed.

(** C6: the pivot of a body whose distance is 0 keeps its rotation angle
    through any number of driver invocations, whatever the deltas. *)
Theorem static_pivot catalog ds st b deltas :
  st = run ds (init catalog) -> b ∈ planets st ->
  distance (data b) = Some 0 ->
  is_Some (rotationY st (orbitGroup b))
  /\ rotationY (run deltas st) (orbitGroup b) = rotationY st (orbitGroup b).
Proof.
  intros -> Hb Hd. pose proof (wf_run catalog ds) as W. split.
  - destruct (wf_group _ W b Hb) as (g & Hg & _).
    unfold rotationY. rewrite Hg. by eexists.
  - by apply static_pivot_run.
Qed.

(** C7: a driver invocation leaves [controls.target] at the world position
    of the tracked planet's mesh, computed in the scene graph as the
    per-body updates of that same frame left it: the mesh offset turned by
    the pivot angle already advanced for this frame. *)
Theorem camera_tracks_planet catalog ds st delta e :
  st = run ds (init catalog) -> find isEarth (planets st) = Some e ->
  objects (animate delta st)
  = objects (foldl (updateBody delta) st (planets st))
  /\ target (animate delta st) = getWorldPosition (animate delta st) (mesh e)
  /\ forall d a, distance (data e) = Some d ->
       rotationY st (orbitGroup e) = Some a ->
       target (animate delta st)
       = Some (rotateY
                 (a + (if gt0 (Some d) then orbitSpeed (data e) * delta * 5
                       else 0))
                 (vec d 0 0)).
Proof.
  intros -> He. pose proof (wf_run catalog ds) as W.
  set (st := run ds (init catalog)) in *.
  assert (target (animate delta st) = getWorldPosition (animate delta st) (mesh e))
    as Ht.
  { unfold animate, retarget. rewrite forEach_planets, He. done. }
  split; [apply retarget_objects|]. split; [done|].
  intros d a Hd Ha. rewrite Ht.
  apply find_elem_of in He as [He _].
  assert (wf (animate delta st)) as W'
    by (eapply wf_same_frame; [done | apply same_frame_animate]).
  destruct (world_position (animate delta st) e d W') as (a' & Ha' & ->);
    [by rewrite animate_planets | done |].
  rewrite rotationY_animate, orbit_total, Ha, Hd in Ha' by (done || congruence).
  simpl in Ha'. injection Ha' as <-. done.
Qed.

Lemma line_node_static deltas st i o :
  wf st -> objects st !! i = Some o -> is_line (kind o) ->
  objects (run deltas st) !! i = Some o.
Proof.
  revert st. induction deltas as [|d deltas IH]; intros st W Ho Hl; simpl;
    [done|].
  apply IH; [|..|done].
  - eapply wf_same_frame; [done | apply same_frame_animate].
  - rewrite animate_lookup, Ho, (line_total _ _ _ o) by done.
    simpl. by rewrite addRotationY_0.
Qed.

(** C9: orbit lines are static.  A line node of the scene is the very same
    node after any number of driver invocations, whatever the deltas, and the
    world positions of its vertices are the same. *)
Theorem orbit_lines_static catalog ds st deltas i o :
  st = run ds (init catalog) ->
  objects st !! i = Some o -> is_line (kind o) ->
  objects (run deltas st) !! i = Some o
  /\ lineWorldVertices (run deltas st) i = lineWorldVertices st i.
Proof.
  intros -> Ho Hl. pose proof (wf_run catalog ds) as W.
  set (st := run ds (init catalog)) in *.
  pose proof (line_node_static deltas st i o W Ho Hl) as Ho'. split; [done|].
  destruct (wf_line _ W i o Ho Hl) as [Hx Hp].
  unfold lineWorldVertices. rewrite Ho', Ho.
  destruct (kind o) as [| | |[| |pts] mat]; try done.
  f_equal. apply list_fmap_ext. intros k p _.
  apply lookup_lt_Some in Ho as Hlt. apply lookup_lt_Some in Ho' as Hlt'.
  destruct (length (objects st)) as [|n]; [lia|].
  destruct (length (objects (run deltas st))) as [|n']; [lia|].
  simpl. by rewrite Ho, Ho', Hx, Hp.
Qed.

(** ** A catalog without the tracked planet *)

Lemma buildEntry_planets st d :
  planets (buildEntry st d)
  = planets st ++ [mkBody (length (objects st)) (S (length (objects st))) d].
Proof.
  unfold buildEntry. simpl.
  destruct (distance d) as [r|]; [|done]. by destruct (Rlt_dec 0 r).
Qed.

Lemma buildEntry_target st d : target (buildEntry st d) = target st.
Proof.
  unfold buildEntry. simpl.
  destruct (distance d) as [r|]; [|done]. by destruct (Rlt_dec 0 r).
Qed.

Lemma buildEntry_console st d : console (buildEntry st d) = console st.
Proof.
  unfold buildEntry. simpl.
  destruct (distance d) as [r|]; [|done]. by destruct (Rlt_dec 0 r).
Qed.

Lemma catalog_planets catalog st :
  data <$> planets (foldl buildEntry st catalog)
  = (data <$> planets st) ++ catalog.
Proof.
  revert st. induction catalog as [|d ds IH]; intros st; simpl.
  - by rewrite app_nil_r.
  - rewrite IH, buildEntry_planets, fmap_app. simpl. by rewrite <- app_assoc.
Qed.

Lemma catalog_target catalog st :
  target (foldl buildEntry st catalog) = target st.
Proof.
  revert st. induction catalog as [|d ds IH]; intros st; simpl; [done|].
  by rewrite IH, buildEntry_target.
Qed.

Lemma catalog_console catalog st :
  console (foldl buildEntry st catalog) = console st.
Proof.
  revert st. induction catalog as [|d ds IH]; intros st; simpl; [done|].
  by rewrite IH, buildEntry_console.
Qed.

Lemma find_isEarth_None (bs : list Body) :
  (forall d, d ∈ data <$> bs -> name d <> "Earth") -> find isEarth bs = None.
Proof.
  induction bs as [|b bs IH]; simpl; intros H; [done|].
  unfold isEarth at 1. destruct (String.eqb_spec (name (data b)) "Earth") as [E|_].
  - exfalso. apply (H (data b)); [by left | done].
  - apply IH. intros d Hd. apply H. by right.
Qed.

Lemma run_target_None ds st :
  find isEarth (planets st) = None -> target (run ds st) = target st.
Proof.
  revert st. induction ds as [|d ds IH]; intros st Hs; simpl; [done|].
  rewrite IH.
  - unfold animate, retarget. by rewrite forEach_planets, Hs, forEach_target.
  - by rewrite animate_planets.
Qed.

(** C10: when no catalog entry is named Earth, scene construction runs to
    its end with no meteor attached (the registry holds the catalog bodies
    only and nothing is logged), and in every later frame the re-targeting
    step changes nothing: the frame is the per-body updates alone and
    [controls.target] is still the origin it started at. *)
Theorem missing_tracked_planet catalog ds st delta :
  (forall d, d ∈ catalog -> name d <> "Earth") ->
  st = run ds (init catalog) ->
  createSolarSystem catalog emptyScene = foldl buildEntry emptyScene catalog
  /\ init catalog = foldl buildEntry emptyScene catalog
  /\ data <$> planets (init catalog) = catalog
  /\ console (init catalog) = []
  /\ animate delta st = foldl (updateBody delta) st (planets st)
  /\ target (animate delta st) = Some (vec 0 0 0).
Proof.
  intros Hno ->.
  assert (find isEarth (planets (foldl buildEntry emptyScene catalog)) = None)
    as Hf by (apply find_isEarth_None; by rewrite catalog_planets).
  assert (createSolarSystem catalog emptyScene
          = foldl buildEntry emptyScene catalog) as Hc
    by (unfold createSolarSystem; by rewrite Hf).
  assert (init catalog = foldl buildEntry emptyScene catalog) as Hi
    by (unfold init, retarget; by rewrite Hc, Hf).
  assert (forall s, find isEarth (planets s) = None ->
            animate delta s = foldl (updateBody delta) s (planets s)) as Ha.
  { intros s Hs. unfold animate, retarget. by rewrite forEach_planets, Hs. }
  assert (find isEarth (planets (run ds (init catalog))) = None) as Hr
    by (by rewrite run_planets, Hi).
  assert (target (run ds (init catalog)) = Some (vec 0 0 0)) as Ht.
  { rewrite (run_target_None ds) by (by rewrite Hi).
    by rewrite Hi, catalog_target. }
  repeat split; try done.
  - by rewrite Hi, catalog_planets.
  - by rewrite Hi, catalog_console.
  - by apply Ha.
  - by rewrite (Ha _ Hr), forEach_target.
Qed.

(** ** The program's own scene: Sun, Earth and the meteor *)

Lemma solar_lookup ds i o :
  objects solarScene !! i = Some o ->
  exists a, objects (run ds (init solarData)) !! i = Some (addRotationY a o).
Proof. apply same_frame_lookup, run_solarData_frame. Qed.

Lemma solar_sun_in ds : mkBody 2 3 Sun ∈ planets (run ds (init solarData)).
Proof. rewrite run_solarData_planets. by left. Qed.

Lemma solar_earth_in ds : mkBody 4 5 Earth ∈ planets (run ds (init solarData)).
Proof. rewrite run_solarData_planets. right. by left. Qed.

Lemma gt0_Earth : gt0 (distance Earth) = true.
Proof. simpl. destruct (Rlt_dec 0 11); [done | lra]. Qed.

(** C1 (amended): in the program's scene the tracked planet and the meteor
    hold the same pivot (node 5).  The meteor's descriptor carries no distance
    at all, so for it the test [distance > 0] is false and its update only
    spins its own mesh; a driver invocation therefore advances the shared
    pivot by Earth's [orbitSpeed * delta * 5], once, and leaves the Sun's
    pivot where it was. *)
Theorem shared_pivot_advanced_once ds delta :
  planets (run ds (init solarData))
  = [mkBody 2 3 Sun; mkBody 4 5 Earth; mkBody 7 5 Halley]
  /\ distance Halley = None
  /\ (forall s, updateBody delta s (mkBody 7 5 Halley)
               = rotate_y 7 (rotationSpeed Halley * delta * 5) s)
  /\ (exists a, rotationY (run ds (init solarData)) 5 = Some a
        /\ rotationY (animate delta (run ds (init solarData))) 5
           = Some (a + orbitSpeed Earth * delta * 5))
  /\ (exists a, rotationY (run ds (init solarData)) 3 = Some a
        /\ rotationY (animate delta (run ds (init solarData))) 3 = Some a).
Proof.
  pose proof (wf_run solarData ds) as W.
  split; [apply run_solarData_planets|]. split; [done|]. split; [done|].
  split.
  - destruct (solar_lookup ds 5 _ eq_refl) as [a Ha].
    eexists. split; [unfold rotationY; by rewrite Ha|].
    pose proof (orbit_total delta _ _ W (solar_earth_in ds)) as Ht.
    cbn [orbitGroup data] in Ht. rewrite gt0_Earth in Ht.
    rewrite rotationY_animate, Ht by done.
    unfold rotationY. by rewrite Ha.
  - destruct (solar_lookup ds 3 _ eq_refl) as [a Ha].
    eexists. split; [unfold rotationY; by rewrite Ha|].
    pose proof (orbit_total delta _ _ W (solar_sun_in ds)) as Ht.
    cbn [orbitGroup data] in Ht.
    change (distance Sun) with (Some 0) in Ht. rewrite gt0_zero in Ht.
    rewrite rotationY_animate, Ht by done.
    unfold rotationY. rewrite Ha. simpl. f_equal. lra.
Qed.

(** C3 (amended): the registry of the program holds the Sun, Earth and the
    meteor.  Exactly one body has distance 0, the Sun, and its pivot never
    turns.  Earth has a positive distance and its mesh hangs at that offset
    under a pivot of its own, a group under the scene root that is turned
    about the vertical axis only.
    The meteor has no distance in its descriptor and hangs under Earth's
    pivot, not under one of its own. *)
Theorem registry_invariant ds :
  planets (run ds (init solarData))
  = [mkBody 2 3 Sun; mkBody 4 5 Earth; mkBody 7 5 Halley]
  /\ (forall b, b ∈ planets (run ds (init solarData)) ->
       distance (data b) = Some 0 <-> b = mkBody 2 3 Sun)
  /\ (exists d, distance Earth = Some d /\ 0 < d
        /\ exists m g, objects (run ds (init solarData)) !! 4%nat = Some m
             /\ position_x m = Some d /\ parent m = Node 5
             /\ objects (run ds (init solarData)) !! 5%nat = Some g
             /\ kind g = Group /\ rotation_x g = 0 /\ parent g = SceneRoot)
  /\ rotationY (run ds (init solarData)) 3 = rotationY (init solarData) 3
  /\ distance Halley = None
  /\ (exists h, objects (run ds (init solarData)) !! 7%nat = Some h
        /\ parent h = Node 5).
Proof.
  split; [apply run_solarData_planets|]. split; [|split; [|split; [|split]]].
  - intros b. rewrite run_solarData_planets. intros Hb.
    repeat (apply elem_of_cons in Hb as [->|Hb]); simpl.
    + done.
    + split; [intros [= H]; lra | done].
    + done.
    + by apply elem_of_nil in Hb.
  - exists 11. split; [done|]. split; [lra|].
    destruct (solar_lookup ds 4 _ eq_refl) as [a Ha].
    destruct (solar_lookup ds 5 _ eq_refl) as [b Hb].
    by eexists _, _.
  - exact (static_pivot_run ds (init solarData) (mkBody 2 3 Sun)
             (wf_init solarData) (solar_sun_in []) eq_refl).
  - done.
  - destruct (solar_lookup ds 7 _ eq_refl) as [a Ha]. by eexists.
Qed.

(** C4: after any sequence of driver invocations the meteor's world position
    is the offset 11 + 1.8 along the local x axis of the shared pivot, turned
    by the pivot's current revolution angle; Earth's is the offset 11 turned
    by that same angle.  Both lie in the horizontal plane through the pivot's
    origin, at these distances from it. *)
Theorem meteor_lockstep ds :
  exists a p q,
    rotationY (run ds (init solarData)) 5 = Some a
    /\ getWorldPosition (run ds (init solarData)) 7 = Some p
    /\ p = rotateY a (vec (11 + 1.8) 0 0)
    /\ getWorldPosition (run ds (init solarData)) 4 = Some q
    /\ q = rotateY a (vec 11 0 0)
    /\ vx p * vx p + vy p * vy p + vz p * vz p = (11 + 1.8) * (11 + 1.8)
    /\ vy p = 0.
Proof.
  destruct (solar_lookup ds 4 _ eq_refl) as [a4 H4].
  destruct (solar_lookup ds 5 _ eq_refl) as [a5 H5].
  destruct (solar_lookup ds 7 _ eq_refl) as [a7 H7].
  eexists _, _, _. split; [unfold rotationY; by rewrite H5|].
  split; [|split; [reflexivity|]].
  { unfold getWorldPosition. eapply world_position_child; eauto; done. }
  split; [|split; [reflexivity|]].
  { unfold getWorldPosition. eapply world_position_child; eauto; done. }
  split; [|done]. simpl.
  set (a := random 1 * PI * 2 + a5).
  pose proof (sin2_cos2 a) as E. unfold Rsqr in E.
  replace ((11 + 1.8) * cos a + 0 * sin a) with ((11 + 1.8) * cos a) by ring.
  replace (- (11 + 1.8) * sin a + 0 * cos a) with (- ((11 + 1.8) * sin a)) by ring.
  replace ((11 + 1.8) * cos a * ((11 + 1.8) * cos a) + 0 * 0
           + - ((11 + 1.8) * sin a) * - ((11 + 1.8) * sin a))
    with ((11 + 1.8) * (11 + 1.8) * (sin a * sin a + cos a * cos a)) by ring.
  rewrite E. ring.
Qed.

(** ** Orbit lines *)

Lemma orbitPoints_length r : length (orbitPoints r) = 65%nat.
Proof. unfold orbitPoints. by rewrite length_fmap, length_seq. Qed.

Lemma orbitPoints_lookup r i :
  (i <= 64)%nat ->
  orbitPoints r !! i
  = Some (vec (r * cos (INR i / INR segments * PI * 2)) 0
              (r * sin (INR i / INR segments * PI * 2))).
Proof.
  intros Hi. unfold orbitPoints.
  rewrite list_lookup_fmap, lookup_seq_lt by (unfold segments; lia). done.
Qed.

(** The points of an orbit line, in the line's own frame: on the circle of
    radius [r] about the origin, in the plane y = 0. *)
Lemma orbitPoints_circle r p :
  p ∈ orbitPoints r -> vy p = 0 /\ vx p * vx p + vz p * vz p = r * r.
Proof.
  unfold orbitPoints. intros Hp.
  apply list_elem_of_fmap in Hp as (i & -> & _).
  cbv beta zeta. cbn [vx vy vz]. split; [done|].
  set (a := INR i / INR segments * PI * 2).
  pose proof (sin2_cos2 a) as E. unfold Rsqr in E.
  replace (r * r) with (r * r * (sin a * sin a + cos a * cos a))
    by (rewrite E; ring).
  ring.
Qed.

Lemma catalog_objects_incl catalog st x :
  x ∈ objects st -> x ∈ objects (foldl buildEntry st catalog).
Proof.
  revert st. induction catalog as [|d ds IH]; intros st Hx; simpl; [done|].
  apply IH. unfold buildEntry. simpl.
  destruct (distance d) as [r|]; [destruct (Rlt_dec 0 r)|]; simpl;
    rewrite ?elem_of_app; auto.
Qed.

(** Every catalog entry with a positive distance gets its orbit line. *)
Lemma orbit_line_created catalog d r :
  d ∈ catalog -> distance d = Some r -> 0 < r ->
  orbitLine r ∈ objects (init catalog).
Proof.
  intros Hd Hr Hpos. unfold init. rewrite retarget_objects.
  assert (orbitLine r ∈ objects (foldl buildEntry emptyScene catalog)) as H.
  { generalize emptyScene. induction catalog as [|d' ds IH]; intros st; simpl.
    - by apply elem_of_nil in Hd.
    - apply elem_of_cons in Hd as [<-|Hd]; [|by apply IH].
      apply catalog_objects_incl. unfold buildEntry. simpl. rewrite Hr.
      destruct (Rlt_dec 0 r); [|done]. simpl.
      apply elem_of_app. right. by left. }
  unfold createSolarSystem. destruct (find isEarth _); [|done].
  unfold createAsteroids. simpl. apply elem_of_app. by left.
Qed.

(** World position of a vertex of an orbit line: the quarter turn about the
    x axis carries the local plane y = 0 onto the plane z = 0. *)
Lemma orbit_line_vertex r p :
  vy p = 0 ->
  translateX 0 (applyEuler (orbitLine r) p) = vec (vx p) (- vz p) 0.
Proof.
  intros Hy. unfold translateX, applyEuler, rotateX, rotateY. simpl.
  rewrite Hy, cos_0, sin_0, cos_PI2, sin_PI2. f_equal; ring.
Qed.

Lemma orbit_line_world st i r :
  objects st !! i = Some (orbitLine r) ->
  lineWorldVertices st i
  = Some ((fun p => Some (vec (vx p) (- vz p) 0)) <$> orbitPoints r).
Proof.
  intros Ho. unfold lineWorldVertices. rewrite Ho. cbn [kind orbitLine].
  f_equal. apply list_fmap_ext. intros k p Hp.
  apply lookup_lt_Some in Ho as Hlt.
  destruct (length (objects st)) as [|n]; [lia|].
  cbn [localToWorld]. rewrite Ho. cbn [position_x parent orbitLine].
  rewrite <- (orbit_line_vertex r p); [done|].
  eapply orbitPoints_circle, list_elem_of_lookup_2, Hp.
Qed.

Lemma solar_orbit_line ds :
  objects (run ds (init solarData)) !! 6%nat = Some (orbitLine 11).
Proof.
  apply line_node_static; [apply wf_init| |done].
  unfold init. by rewrite retarget_objects, createSolarSystem_solarData.
Qed.

(** C2 (the code at the program's catalog): Earth's orbit line is node 6,
    a loop over 65 points under the scene root.  Because the node is turned
    by a quarter about the x axis, every one of its vertices is, in world
    space, in the vertical plane z = 0, on the circle of radius 11; the
    vertex of index 16 is at (0, -11, 0), off the horizontal plane y = 0 in
    which Earth revolves. *)
Theorem orbit_ring_upright ds :
  objects (run ds (init solarData)) !! 6%nat = Some (orbitLine 11)
  /\ parent (orbitLine 11) = SceneRoot
  /\ length (orbitPoints 11) = 65%nat
  /\ exists pts, lineWorldVertices (run ds (init solarData)) 6 = Some pts
       /\ (forall k p, pts !! k = Some p ->
             exists q, p = Some q /\ vz q = 0
               /\ vx q * vx q + vy q * vy q = 11 * 11)
       /\ pts !! 16%nat = Some (Some (vec 0 (-11) 0)).
Proof.
  split; [apply solar_orbit_line|]. split; [done|].
  split; [apply orbitPoints_length|].
  eexists. split; [apply orbit_line_world, solar_orbit_line|]. split.
  - intros k p Hp. rewrite list_lookup_fmap in Hp.
    destruct (orbitPoints 11 !! k) as [v|] eqn:Hv; simplify_eq/=.
    eexists. split; [done|]. split; [done|]. simpl.
    destruct (orbitPoints_circle 11 v) as [_ E];
      [by eapply list_elem_of_lookup_2|].
    rewrite <- E. ring.
  - rewrite list_lookup_fmap, orbitPoints_lookup by lia.
    cbn [fmap option_fmap option_map vx vy vz].
    replace (INR 16 / INR segments * PI * 2) with (PI / 2).
    + rewrite cos_PI2, sin_PI2. do 2 f_equal. f_equal; ring.
    + unfold segments. rewrite !INR_IZR_INZ. simpl. field.
Qed.

(** ** The procedural mesh *)

Lemma deformVertex_lookup size c0 ps i k :
  deformVertex size c0 ps i !! k
  = if decide (3 * i <= k < 3 * i + 3)%nat
    then (fun v => v + displace size (c0 + k)) <$> ps !! k
    else ps !! k.
Proof.
  unfold deformVertex. rewrite !list_lookup_alter.
  repeat case_decide; try lia; subst;
    rewrite ?Nat.add_assoc, ?Nat.add_0_r; try done.
  all: destruct (ps !! _); simpl; try done.
Qed.

Lemma deform_prefix size c0 ps n k :
  foldl (deformVertex size c0) ps (seq 0 n) !! k
  = if decide (k < 3 * n)%nat
    then (fun v => v + displace size (c0 + k)) <$> ps !! k
    else ps !! k.
Proof.
  induction n as [|n IH].
  - simpl foldl. case_decide; [lia | done].
  - rewrite seq_S, foldl_app. simpl foldl.
    rewrite deformVertex_lookup, IH.
    repeat case_decide; try lia; done.
Qed.

Lemma vertexCount_covers (ps : list R) : (length ps <= 3 * vertexCount ps)%nat.
Proof.
  unfold vertexCount.
  pose proof (Nat.div_mod_eq (length ps + 2) 3).
  pose proof (Nat.mod_upper_bound (length ps + 2) 3). lia.
Qed.

(** Each coordinate of the buffer is displaced once, by its own draw. *)
Lemma deform_lookup size c0 ps k :
  deform size c0 ps !! k
  = (fun v => v + displace size (c0 + k)) <$> ps !! k.
Proof.
  unfold deform. rewrite deform_prefix. case_decide; [done|].
  pose proof (vertexCount_covers ps).
  by rewrite lookup_ge_None_2 by lia.
Qed.

Lemma deform_length size c0 ps : length (deform size c0 ps) = length ps.
Proof.
  unfold deform. generalize (seq 0 (vertexCount ps)). intros l. revert ps.
  induction l as [|i l IH]; intros ps; simpl; [done|].
  rewrite IH. unfold deformVertex. by rewrite !length_alter.
Qed.

Lemma displace_range size c :
  0 <= random c < 1 -> 0 <= size ->
  -0.05 * size <= displace size c <= 0.05 * size.
Proof. unfold displace. intros [H0 H1] Hs. split; nra. Qed.

(** ** Further properties of construction and of the driver *)

Lemma state_eq (s s' : State) :
  objects s = objects s' -> planets s = planets s' -> target s = target s' ->
  rng s = rng s' -> console s = console s' -> s = s'.
Proof. destruct s, s'. simpl. by intros -> -> -> -> ->. Qed.

Lemma updateBody_rng delta st b : rng (updateBody delta st b) = rng st.
Proof. unfold updateBody. by destruct (gt0 _). Qed.

Lemma updateBody_console delta st b :
  console (updateBody delta st b) = console st.
Proof. unfold updateBody. by destruct (gt0 _). Qed.

Lemma forEach_rng delta bs st : rng (foldl (updateBody delta) st bs) = rng st.
Proof.
  revert st. induction bs as [|b bs IH]; intros st; simpl; [done|].
  by rewrite IH, updateBody_rng.
Qed.

Lemma forEach_console delta bs st :
  console (foldl (updateBody delta) st bs) = console st.
Proof.
  revert st. induction bs as [|b bs IH]; intros st; simpl; [done|].
  by rewrite IH, updateBody_console.
Qed.

Lemma retarget_rng st : rng (retarget st) = rng st.
Proof. unfold retarget. by destruct (find _ _). Qed.

Lemma retarget_console st : console (retarget st) = console st.
Proof. unfold retarget. by destruct (find _ _). Qed.

Lemma animate_rng delta st : rng (animate delta st) = rng st.
Proof. unfold animate. by rewrite retarget_rng, forEach_rng. Qed.

Lemma animate_console delta st : console (animate delta st) = console st.
Proof. unfold animate. by rewrite retarget_console, forEach_console. Qed.

(** What [controls.target] is after a frame. *)
Lemma animate_target delta st :
  target (animate delta st)
  = match find isEarth (planets st) with
    | Some e => localToWorld (objects (animate delta st))
                  (length (objects (animate delta st))) (mesh e) (vec 0 0 0)
    | None => target st
    end.
Proof.
  unfold animate at 1. unfold retarget. rewrite forEach_planets.
  destruct (find isEarth (planets st)) as [e|]; simpl.
  - unfold getWorldPosition, animate. by rewrite retarget_objects.
  - apply forEach_target.
Qed.

Lemma increment_add d1 d2 i b :
  increment (d1 + d2) i b = increment d1 i b + increment d2 i b.
Proof.
  unfold increment.
  destruct (decide (mesh b = i)),
    (gt0 (distance (data b)) && bool_decide (orbitGroup b = i)); lra.
Qed.

Lemma total_add d1 d2 i bs :
  total (d1 + d2) i bs = total d1 i bs + total d2 i bs.
Proof.
  induction bs as [|b bs IH]; simpl; [lra|].
  rewrite IH, increment_add. lra.
Qed.

Lemma increment_0 i b : increment 0 i b = 0.
Proof.
  unfold increment.
  destruct (decide (mesh b = i)),
    (gt0 (distance (data b)) && bool_decide (orbitGroup b = i)); lra.
Qed.

Lemma animate_animate_objects d1 d2 st :
  objects (animate d2 (animate d1 st)) = objects (animate (d1 + d2) st).
Proof.
  apply list_eq. intros i.
  rewrite !animate_lookup, animate_planets, total_add.
  destruct (objects st !! i); simpl; [|done].
  by rewrite addRotationY_add.
Qed.

Lemma animate_animate d1 d2 st :
  animate d2 (animate d1 st) = animate (d1 + d2) st.
Proof.
  pose proof (animate_animate_objects d1 d2 st) as Ho.
  apply state_eq.
  - done.
  - by rewrite !animate_planets.
  - rewrite (animate_target d2), (animate_target (d1 + d2)), animate_planets.
    destruct (find isEarth (planets st)) as [e|] eqn:E.
    + by rewrite Ho.
    + by rewrite animate_target, E.
  - by rewrite !animate_rng.
  - by rewrite !animate_console.
Qed.

(** X5: the driver is independent of the frame rate.  Two invocations with
    deltas [d1] then [d2] leave the whole state (scene graph, registry,
    camera target) exactly as one invocation with delta [d1 + d2] does, from
    any state; hence a non-empty sequence of frames acts as a single frame
    over the total elapsed time. *)
Theorem frame_rate_independence d1 d2 d ds st :
  animate d2 (animate d1 st) = animate (d1 + d2) st
  /\ run (d :: ds) st = animate (elapsed (d :: ds)) st.
Proof.
  split; [apply animate_animate|].
  revert d st. induction ds as [|d' ds IH]; intros d st.
  - simpl. f_equal. lra.
  - change (run (d :: d' :: ds) st) with (run (d' :: ds) (animate d st)).
    rewrite IH, animate_animate. f_equal.
Qed.

Lemma run_rng ds st : rng (run ds st) = rng st.
Proof.
  revert st. induction ds as [|d ds IH]; intros st; simpl; [done|].
  by rewrite IH, animate_rng.
Qed.

Lemma run_console ds st : console (run ds st) = console st.
Proof.
  revert st. induction ds as [|d ds IH]; intros st; simpl; [done|].
  by rewrite IH, animate_console.
Qed.

(** X6: frames only turn nodes.  Through any sequence of frames, from any
    state, the registry, the count of random draws, the console and the number
    of scene nodes stay as they are, and every node keeps its kind, name,
    position, [rotation.x] and parent: only its [rotation.y] may have been
    added to. *)
Theorem frames_only_turn ds st :
  planets (run ds st) = planets st
  /\ rng (run ds st) = rng st
  /\ console (run ds st) = console st
  /\ length (objects (run ds st)) = length (objects st)
  /\ forall i, exists a,
       objects (run ds st) !! i = addRotationY a <$> objects st !! i.
Proof.
  split; [apply run_planets|]. split; [apply run_rng|].
  split; [apply run_console|]. split; [apply run_length|].
  apply run_lookup.
Qed.

Lemma unreferenced_total delta i bs :
  (forall b, b ∈ bs -> mesh b <> i /\ orbitGroup b <> i) ->
  total delta i bs = 0.
Proof.
  intros H. apply total_zero. intros b Hb. destruct (H b Hb) as [Hm Hg].
  unfold increment.
  rewrite decide_False, bool_decide_eq_false_2, andb_false_r by done. lra.
Qed.

(** X7: a node that no body of the registry holds as its mesh or as its
    pivot (a light, an orbit line) is left exactly as it is by any sequence
    of frames. *)
Theorem unreferenced_node_untouched ds st i :
  (forall b, b ∈ planets st -> mesh b <> i /\ orbitGroup b <> i) ->
  objects (run ds st) !! i = objects st !! i.
Proof.
  revert st. induction ds as [|d ds IH]; intros st H; simpl; [done|].
  rewrite IH by (by rewrite animate_planets).
  rewrite animate_lookup, unreferenced_total by done.
  apply addRotationY_fmap_0.
Qed.

(** ** The camera target between frames *)

Lemma run_retarget ds st :
  ds <> [] -> exists s, run ds st = retarget s.
Proof.
  revert st. induction ds as [|d ds IH]; intros st Hne; [done|].
  destruct ds as [|d' ds].
  - simpl. unfold animate. by eexists.
  - apply (IH (animate d st)). done.
Qed.

Lemma reachable_retarget catalog ds :
  exists s, run ds (init catalog) = retarget s.
Proof.
  destruct ds as [|d ds].
  - simpl. unfold init. by eexists.
  - by apply run_retarget.
Qed.

Lemma retarget_sync s e :
  find isEarth (planets (retarget s)) = Some e ->
  target (retarget s) = getWorldPosition (retarget s) (mesh e).
Proof.
  rewrite retarget_planets. intros He. unfold retarget. by rewrite He.
Qed.

Lemma target_sync catalog ds e :
  find isEarth (planets (run ds (init catalog))) = Some e ->
  target (run ds (init catalog))
  = getWorldPosition (run ds (init catalog)) (mesh e).
Proof.
  destruct (reachable_retarget catalog ds) as [s ->]. apply retarget_sync.
Qed.

(** X8: between frames the camera target is in step with the tracked
    planet.  In every state of the program, right after [init] as after any
    number of frames, if a body named Earth is in the registry then
    [controls.target] is the current world position of its mesh. *)
Theorem camera_target_in_step catalog ds st e :
  st = run ds (init catalog) ->
  find isEarth (planets st) = Some e ->
  target st = getWorldPosition st (mesh e).
Proof. intros ->. apply target_sync. Qed.

(** X9: a frame with delta 0 changes nothing: in every state of the program
    the driver invoked with delta 0 returns that very state. *)
Theorem zero_delta_frame catalog ds :
  animate 0 (run ds (init catalog)) = run ds (init catalog).
Proof.
  set (st := run ds (init catalog)).
  assert (objects (animate 0 st) = objects st) as Ho.
  { apply list_eq. intros i. rewrite animate_lookup, total_zero.
    - apply addRotationY_fmap_0.
    - intros b _. apply increment_0. }
  apply state_eq.
  - done.
  - apply animate_planets.
  - rewrite animate_target, Ho.
    destruct (find isEarth (planets st)) as [e|] eqn:E; [|done].
    symmetry. by apply target_sync.
  - apply animate_rng.
  - apply animate_console.
Qed.

(** ** Bodies stay on their orbits *)

Lemma rotateY_circle a d :
  vy (rotateY a (vec d 0 0)) = 0
  /\ vx (rotateY a (vec d 0 0)) * vx (rotateY a (vec d 0 0))
     + vz (rotateY a (vec d 0 0)) * vz (rotateY a (vec d 0 0)) = d * d.
Proof.
  unfold rotateY. cbn [vx vy vz]. split; [done|].
  pose proof (sin2_cos2 a) as E. unfold Rsqr in E.
  replace (d * d) with (d * d * (sin a * sin a + cos a * cos a))
    by (rewrite E; ring).
  ring.
Qed.

(** X10: every body whose descriptor has a distance [d] stays, through any
    run of the program, on the horizontal circle of radius [d] about the
    scene origin: its world position is defined, has height 0 and is at
    distance [d] from the vertical axis, whatever its spin and the frame
    deltas; a body at distance 0 stays at the origin. *)
Theorem body_stays_on_orbit catalog ds st b d :
  st = run ds (init catalog) -> b ∈ planets st ->
  distance (data b) = Some d ->
  exists p, getWorldPosition st (mesh b) = Some p
    /\ vy p = 0
    /\ vx p * vx p + vz p * vz p = d * d
    /\ (d = 0 -> p = vec 0 0 0).
Proof.
  intros -> Hb Hd.
  destruct (world_position _ b d (wf_run catalog ds) Hb Hd) as (a & _ & Hp).
  eexists. split; [exact Hp|].
  destruct (rotateY_circle a d) as [Hy Hc].
  split; [done|]. split; [done|].
  intros ->. unfold rotateY. cbn [vx vy vz]. f_equal; ring.
Qed.

(** ** The scene built from any catalog *)

Lemma find_isEarth_data bs :
  data <$> find isEarth bs = find namedEarth (data <$> bs).
Proof.
  induction bs as [|b bs IH]; simpl; [done|].
  unfold isEarth at 1, namedEarth at 1.
  by destruct (String.eqb (name (data b)) "Earth").
Qed.

Lemma find_app_Some {A} (f : A -> bool) l l' x :
  find f l = Some x -> find f (l ++ l') = Some x.
Proof.
  induction l as [|a l IH]; simpl; [done|]. by destruct (f a).
Qed.

Lemma catalog_find catalog :
  data <$> find isEarth (planets (foldl buildEntry emptyScene catalog))
  = find namedEarth catalog.
Proof. by rewrite find_isEarth_data, catalog_planets. Qed.

(** X1: the registry mirrors the catalog.  For any catalog, in every state
    of the program, the descriptors of the registry are the catalog entries in
    catalog order, followed by the meteor's descriptor exactly when some
    entry is named Earth. *)
Theorem registry_layout catalog ds :
  data <$> planets (run ds (init catalog))
  = catalog ++ match find namedEarth catalog with
               | Some _ => [Halley]
               | None => []
               end.
Proof.
  rewrite run_planets. unfold init. rewrite retarget_planets.
  rewrite <- catalog_find. unfold createSolarSystem.
  destruct (find isEarth _) as [e|]; simpl.
  - unfold createAsteroids. simpl. rewrite fmap_app, catalog_planets. done.
  - by rewrite catalog_planets, app_nil_r.
Qed.

Lemma buildEntry_lines st d :
  List.filter isLine (objects (buildEntry st d))
  = List.filter isLine (objects st)
    ++ match ringRadius d with Some r => [orbitLine r] | None => [] end.
Proof.
  unfold buildEntry, ringRadius. simpl.
  destruct (distance d) as [r|]; [destruct (Rlt_dec 0 r)|]; simpl;
    rewrite ?List.filter_app; simpl; by rewrite ?app_nil_r.
Qed.

Lemma catalog_lines catalog st :
  List.filter isLine (objects (foldl buildEntry st catalog))
  = List.filter isLine (objects st) ++ (orbitLine <$> ringRadii catalog).
Proof.
  revert st. induction catalog as [|d ds IH]; intros st; simpl.
  - by rewrite app_nil_r.
  - rewrite IH, buildEntry_lines, <- app_assoc. f_equal.
    unfold ringRadii. simpl. by destruct (ringRadius d).
Qed.

(** X2: one orbit line per revolving entry.  For any catalog, the line
    nodes of the constructed scene are, in catalog order, one orbit line of
    radius [distance] for each entry whose distance is positive, and nothing
    else: an entry with distance 0, or with no distance, gets none. *)
Theorem orbit_lines_of_catalog catalog :
  List.filter isLine (objects (init catalog)) = orbitLine <$> ringRadii catalog.
Proof.
  unfold init. rewrite retarget_objects. unfold createSolarSystem.
  destruct (find isEarth _) as [e|].
  - unfold createAsteroids. simpl.
    rewrite List.filter_app, catalog_lines. simpl. by rewrite app_nil_r.
  - by rewrite catalog_lines.
Qed.

Lemma buildEntry_rng st d : rng (buildEntry st d) = S (rng st).
Proof.
  unfold buildEntry. simpl.
  destruct (distance d) as [r|]; [|done]. by destruct (Rlt_dec 0 r).
Qed.

Lemma buildEntry_objects_lookup st d i o :
  objects st !! i = Some o -> objects (buildEntry st d) !! i = Some o.
Proof.
  intros H. unfold buildEntry. simpl.
  destruct (distance d) as [r|]; [destruct (Rlt_dec 0 r)|]; simpl;
    repeat apply lookup_app_l_Some; done.
Qed.

Lemma catalog_objects_lookup catalog st i o :
  objects st !! i = Some o ->
  objects (foldl buildEntry st catalog) !! i = Some o.
Proof.
  revert st. induction catalog as [|d ds IH]; intros st H; simpl; [done|].
  by apply IH, buildEntry_objects_lookup.
Qed.

Lemma catalog_planets_lookup catalog st i b :
  planets st !! i = Some b ->
  planets (foldl buildEntry st catalog) !! i = Some b.
Proof.
  revert st. induction catalog as [|d ds IH]; intros st H; simpl; [done|].
  apply IH. rewrite buildEntry_planets. by apply lookup_app_l_Some.
Qed.

Lemma buildEntry_objects st d :
  objects (buildEntry st d)
  = objects (createBody d st).2
    ++ match ringRadius d with Some r => [orbitLine r] | None => [] end.
Proof.
  unfold buildEntry, ringRadius. simpl.
  destruct (distance d) as [r|]; [destruct (Rlt_dec 0 r)|]; simpl;
    by rewrite ?app_nil_r.
Qed.

Lemma buildEntry_new st d :
  exists m g,
    planets (buildEntry st d) !! length (planets st)
    = Some (mkBody (length (objects st)) (S (length (objects st))) d)
    /\ objects (buildEntry st d) !! length (objects st) = Some m
    /\ obj_name m = name d /\ position_x m = distance d /\ rotation_y m = 0
    /\ objects (buildEntry st d) !! S (length (objects st)) = Some g
    /\ rotation_y g = random (rng st) * PI * 2.
Proof.
  assert (forall x,
    (objects st ++ x) !! length (objects st) = (x !! 0%nat)
    /\ (objects st ++ x) !! S (length (objects st)) = (x !! 1%nat)) as Happ.
  { intros x. split; rewrite lookup_app_r by lia; f_equal; lia. }
  eexists _, _. split.
  { rewrite buildEntry_planets. by rewrite lookup_app_r, Nat.sub_diag by lia. }
  rewrite buildEntry_objects. simpl. rewrite <- app_assoc.
  rewrite (proj1 (Happ _)), (proj2 (Happ _)). simpl. done.
Qed.

Lemma catalog_entry catalog st k d :
  catalog !! k = Some d ->
  exists b m g,
    planets (foldl buildEntry st catalog) !! (length (planets st) + k)%nat
    = Some b
    /\ data b = d
    /\ objects (foldl buildEntry st catalog) !! mesh b = Some m
    /\ obj_name m = name d /\ position_x m = distance d /\ rotation_y m = 0
    /\ objects (foldl buildEntry st catalog) !! orbitGroup b = Some g
    /\ rotation_y g = random (rng st + k) * PI * 2.
Proof.
  revert st k. induction catalog as [|d' ds IH]; intros st k Hk; [done|].
  destruct k as [|k]; simpl in Hk.
  - injection Hk as ->. simpl.
    destruct (buildEntry_new st d) as (m & g & Hb & Hm & H1 & H2 & H3 & Hg & H4).
    eexists _, m, g. rewrite !Nat.add_0_r.
    split; [by apply catalog_planets_lookup|]. split; [done|]. simpl.
    split; [by apply catalog_objects_lookup|].
    do 3 (split; [done|]).
    split; [by apply catalog_objects_lookup | done].
  - simpl. destruct (IH (buildEntry st d') k Hk) as (b & m & g & Hb & H).
    exists b, m, g.
    rewrite buildEntry_planets, length_app, buildEntry_rng in *. simpl in Hb.
    replace (length (planets st) + S k)%nat
      with (length (planets st) + 1 + k)%nat by lia.
    replace (rng st + S k)%nat with (S (rng st) + k)%nat by lia.
    done.
Qed.

Lemma init_objects_lookup catalog i o :
  objects (foldl buildEntry emptyScene catalog) !! i = Some o ->
  objects (init catalog) !! i = Some o.
Proof.
  intros H. unfold init. rewrite retarget_objects. unfold createSolarSystem.
  destruct (find isEarth _); [|done].
  unfold createAsteroids. simpl. by apply lookup_app_l_Some.
Qed.

Lemma init_planets_lookup catalog i b :
  planets (foldl buildEntry emptyScene catalog) !! i = Some b ->
  planets (init catalog) !! i = Some b.
Proof.
  intros H. unfold init. rewrite retarget_planets. unfold createSolarSystem.
  destruct (find isEarth _); [|done].
  unfold createAsteroids. simpl. by apply lookup_app_l_Some.
Qed.

(** X3: how construction starts each body.  For any catalog, the entry of
    index [k] becomes the body of index [k] of the registry; its mesh carries
    the entry's name, hangs at local x = [distance] and starts with spin 0;
    its pivot starts turned by the [k]-th random draw times 2 pi, which for a
    source with values in [0, 1) is an angle in [0, 2 pi). *)
Theorem construction_of_entry catalog k d :
  (forall n, 0 <= random n < 1) ->
  catalog !! k = Some d ->
  exists b m g,
    planets (init catalog) !! k = Some b /\ data b = d
    /\ objects (init catalog) !! mesh b = Some m
    /\ obj_name m = name d /\ position_x m = distance d /\ rotation_y m = 0
    /\ objects (init catalog) !! orbitGroup b = Some g
    /\ rotation_y g = random k * PI * 2
    /\ 0 <= rotation_y g < 2 * PI.
Proof.
  intros Hrange Hk.
  destruct (catalog_entry catalog emptyScene k d Hk)
    as (b & m & g & Hb & Hd & Hm & H1 & H2 & H3 & Hg & H4).
  simpl in Hb, H4. exists b, m, g.
  split; [by apply init_planets_lookup|]. split; [done|].
  split; [by apply init_objects_lookup|]. do 3 (split; [done|]).
  split; [by apply init_objects_lookup|]. split; [done|].
  rewrite H4. pose proof PI_RGT_0. pose proof (Hrange k). nra.
Qed.

Lemma same_frame_trans s1 s2 s3 :
  same_frame s1 s2 -> same_frame s2 s3 -> same_frame s1 s3.
Proof.
  intros [P1 L1] [P2 L2]. split; [congruence|].
  intros i. destruct (L1 i) as [a Ha], (L2 i) as [b Hb].
  exists (a + b). rewrite Hb, Ha.
  destruct (objects s1 !! i); simpl; [|done].
  by rewrite addRotationY_add.
Qed.

Lemma reachable_frame catalog ds :
  same_frame (createSolarSystem catalog emptyScene) (run ds (init catalog)).
Proof.
  eapply same_frame_trans; [apply same_frame_retarget | apply same_frame_run].
Qed.

(** X4: the meteor follows the tracked planet, whatever the catalog.  If the
    first catalog entry named Earth has distance [d], then in every state of
    the program the tracked body is that entry's body, the last body of the
    registry is the meteor, both hold the same pivot, and with [a] the
    current angle of that pivot the meteor is at the offset [d + 1.8] turned
    by [a], Earth at the offset [d] turned by [a], and the camera target is
    on Earth. *)
Theorem meteor_follows_tracked_planet catalog ds st e0 d :
  st = run ds (init catalog) ->
  find namedEarth catalog = Some e0 -> distance e0 = Some d ->
  exists e h a,
    find isEarth (planets st) = Some e /\ data e = e0
    /\ last (planets st) = Some h /\ data h = Halley
    /\ orbitGroup h = orbitGroup e
    /\ rotationY st (orbitGroup e) = Some a
    /\ getWorldPosition st (mesh h) = Some (rotateY a (vec (d + 1.8) 0 0))
    /\ getWorldPosition st (mesh e) = Some (rotateY a (vec d 0 0))
    /\ target st = Some (rotateY a (vec d 0 0)).
Proof.
  intros -> Hfind Hd.
  set (st1 := foldl buildEntry emptyScene catalog).
  pose proof (catalog_find catalog) as Hc. fold st1 in Hc. rewrite Hfind in Hc.
  destruct (find isEarth (planets st1)) as [e|] eqn:He; [|done].
  simpl in Hc. injection Hc as Hdata.
  assert (createSolarSystem catalog emptyScene = createAsteroids e st1) as Hcs
    by (unfold createSolarSystem; fold st1; by rewrite He).
  pose proof (reachable_frame catalog ds) as F. rewrite Hcs in F.
  pose proof (wf_run catalog ds) as W.
  set (st := run ds (init catalog)) in *.
  set (h := mkBody (length (objects st1)) (orbitGroup e) Halley).
  assert (planets st = planets st1 ++ [h]) as Hp by (by destruct F as [-> _]).
  assert (find isEarth (planets st) = Some e) as He'
    by (rewrite Hp; by apply find_app_Some).
  assert (e ∈ planets st) as Hin by (by apply find_elem_of in He' as [? _]).
  destruct (wf_mesh _ W e Hin) as (o & Ho & _ & Hop & Hox).
  destruct (wf_group _ W e Hin) as (g & Hg & _ & Hgx & Hgr & Hgp).
  assert (objects (createAsteroids e st1) !! mesh h
          = Some {| kind := Mesh (IcosahedronGeometry
                              (deform 0.2 (rng st1) (icosahedron 0.2)))
                            (MeshPhongMaterial (Some 0xADD8E6%Z) None 5 true);
                    obj_name := ""; position_x := Some (d + 1.8);
                    rotation_x := 0; rotation_y := 0;
                    parent := Node (orbitGroup e) |}) as Hh.
  { unfold createAsteroids. simpl.
    rewrite lookup_app_r, Nat.sub_diag by lia. simpl.
    by rewrite Hdata, Hd. }
  destruct (same_frame_lookup _ _ _ _ F Hh) as [ah Hh'].
  assert (getWorldPosition st (mesh e)
          = Some (rotateY (rotation_y g) (vec d 0 0))) as Hwe.
  { unfold getWorldPosition. eapply world_position_child; eauto.
    apply Hox. by rewrite Hdata. }
  exists e, h, (rotation_y g).
  split; [done|]. split; [done|]. split; [by rewrite Hp, last_snoc|].
  split; [done|]. split; [done|].
  split; [unfold rotationY; by rewrite Hg|].
  split; [|split; [done|]].
  - unfold getWorldPosition. eapply world_position_child; eauto; done.
  - fold st. rewrite <- Hwe. by apply target_sync.
Qed.

Lemma catalog_rng catalog st :
  rng (foldl buildEntry st catalog) = (rng st + length catalog)%nat.
Proof.
  revert st. induction catalog as [|d ds IH]; intros st; simpl; [lia|].
  rewrite IH, buildEntry_rng. lia.
Qed.

(** X11: the random draws of a run.  Construction makes one draw per
    catalog entry, in catalog order, and then, when some entry is named
    Earth, three draws per vertex of the meteor's icosahedron; the frames
    that follow make none. *)
Theorem draws_consumed catalog ds :
  rng (run ds (init catalog))
  = (length catalog
     + match find namedEarth catalog with
       | Some _ => 3 * vertexCount (icosahedron 0.2)
       | None => 0
       end)%nat.
Proof.
  rewrite run_rng. unfold init. rewrite retarget_rng.
  rewrite <- catalog_find. unfold createSolarSystem.
  destruct (find isEarth _) as [e|]; simpl.
  - by rewrite catalog_rng.
  - rewrite catalog_rng. simpl. lia.
Qed.

(** ** Angles as a function of elapsed time *)

Lemma total_0 i bs : total 0 i bs = 0.
Proof. apply total_zero. intros b _. apply increment_0. Qed.

Lemma run_objects_elapsed ds st :
  objects (run ds st) = objects (animate (elapsed ds) st).
Proof.
  revert st. induction ds as [|d ds IH]; intros st; simpl.
  - apply list_eq. intros i.
    by rewrite animate_lookup, total_0, addRotationY_fmap_0.
  - by rewrite IH, animate_animate_objects.
Qed.

(** X12: the angles in closed form.  For any catalog and any sequence of
    frames, with [T] the total elapsed time: the mesh of the entry of index
    [k] has spin [rotationSpeed * 5 * T]; and when the entry has a distance,
    its pivot is at its starting angle, the [k]-th random draw times 2 pi,
    plus [orbitSpeed * 5 * T] if that distance is positive and plus nothing
    otherwise. *)
Theorem angles_closed_form catalog ds k d :
  catalog !! k = Some d ->
  exists b,
    planets (run ds (init catalog)) !! k = Some b /\ data b = d
    /\ rotationY (run ds (init catalog)) (mesh b)
       = Some (rotationSpeed d * 5 * elapsed ds)
    /\ forall x, distance d = Some x ->
         rotationY (run ds (init catalog)) (orbitGroup b)
         = Some (random k * PI * 2
                 + (if Rlt_dec 0 x then orbitSpeed d * 5 * elapsed ds else 0)).
Proof.
  intros Hk.
  destruct (catalog_entry catalog emptyScene k d Hk)
    as (b & m & g & Hb & Hd & Hm & _ & _ & Hmr & Hg & Hgr).
  simpl in Hb, Hgr.
  apply init_planets_lookup in Hb. apply init_objects_lookup in Hm, Hg.
  pose proof (wf_init catalog) as W.
  assert (b ∈ planets (init catalog)) as Hin
    by (by eapply list_elem_of_lookup_2).
  exists b. split; [by rewrite run_planets|]. split; [done|].
  unfold rotationY. rewrite !run_objects_elapsed, !animate_lookup. split.
  - rewrite spin_total, Hm, Hd by done. simpl. f_equal. rewrite Hmr. lra.
  - intros x Hx.
    rewrite orbit_total, Hg, Hd, Hx by (done || congruence).
    simpl. f_equal. rewrite Hgr. destruct (Rlt_dec 0 x); lra.
Qed.

(** X13: the shape of the scene graph.  For any catalog, in every state of
    the program: every body's mesh is a mesh node hanging directly under that
    body's pivot, at local x = [distance] when the descriptor has one; every
    pivot is a group at the scene origin, directly under the scene root and
    never turned about x; no two bodies hold the same mesh; two bodies hold
    the same pivot only if one of them has no distance; every line node is at
    the origin, directly under the scene root. *)
Theorem scene_shape catalog ds : wf (run ds (init catalog)).
Proof. eapply wf_same_frame; [apply wf_init | apply same_frame_run]. Qed.

End Scene.

(** ** The mesh generator under a given random source *)

Lemma deform_ext random random' size c0 ps :
  (forall j, (j < length ps)%nat -> random' (c0 + j)%nat = random (c0 + j)%nat) ->
  deform random' size c0 ps = deform random size c0 ps.
Proof.
  intros H. apply list_eq. intros k. rewrite !deform_lookup.
  destruct (ps !! k) as [v|] eqn:Hk; simpl; [|done].
  apply lookup_lt_Some in Hk. unfold displace. by rewrite H.
Qed.

(** C8: the mesh generator adds to every coordinate [k] of the icosahedron's
    vertex buffer the offset [(random - 0.5) * 0.1 * size] of a draw of its
    own, the [k]-th draw since the call, so that for a source with values in
    [0, 1) and a size that is not negative the offset is within
    [-0.05 * size, 0.05 * size]; and the mesh depends on the random source
    through these draws only: two sources that agree on them, with the same
    color and size, give the same mesh, vertex buffer included. *)
Theorem asteroid_mesh_displacement random icosahedron clr size st k v :
  (forall n, 0 <= random n < 1) -> 0 <= size ->
  icosahedron size !! k = Some v ->
  exists positions off,
    kind (createAsteroidMesh random icosahedron clr size st).1
    = Mesh (IcosahedronGeometry positions)
        (MeshPhongMaterial (Some clr) None 5 true)
    /\ length positions = length (icosahedron size)
    /\ positions !! k = Some (v + off)
    /\ off = (random (rng st + k)%nat - 0.5) * 0.1 * size
    /\ -0.05 * size <= off <= 0.05 * size
    /\ forall random',
         (forall j, (j < length (icosahedron size))%nat ->
            random' (rng st + j)%nat = random (rng st + j)%nat) ->
         createAsteroidMesh random' icosahedron clr size st
         = createAsteroidMesh random icosahedron clr size st.
Proof.
  intros Hrange Hsize Hk.
  exists (deform random size (rng st) (icosahedron size)),
         (displace random size (rng st + k)).
  split; [done|]. split; [apply deform_length|].
  split; [by rewrite deform_lookup, Hk|]. split; [done|].
  split; [by apply displace_range|].
  intros random' H. unfold createAsteroidMesh.
  by rewrite (deform_ext random random').
Qed.

(** ** Concrete instances *)

Lemma sampleRandom_range n : 0 <= sampleRandom n < 1.
Proof. unfold sampleRandom. destruct (Nat.even n); lra. Qed.

Lemma sample_planets ds :
  planets (run ds (init sampleRandom sampleBuffer solarData))
  = [mkBody 2 3 Sun; mkBody 4 5 Earth; mkBody 7 5 Halley].
Proof. apply run_solarData_planets. Qed.

Lemma sample_registry :
  planets (init sampleRandom sampleBuffer solarData)
  = [mkBody 2 3 Sun; mkBody 4 5 Earth; mkBody 7 5 Halley].
Proof. exact (sample_planets []). Qed.

(** C1, as stated, fails on the program's scene: the descriptor of the
    meteor does not carry the distance 0. *)
Lemma meteor_distance_not_zero :
  ~ (forall b, b ∈ planets (init sampleRandom sampleBuffer solarData) ->
       isAsteroid (data b) = true -> distance (data b) = Some 0).
Proof.
  intros H. specialize (H (mkBody 7 5 Halley)).
  rewrite sample_registry in H.
  assert (distance (data (mkBody 7 5 Halley)) = Some 0) as E.
  { apply H; [|done]. right. right. by left. }
  discriminate E.
Qed.

(** C3, as stated, fails on the program's scene: the meteor is in the
    registry, and it has neither the distance 0 nor a positive distance with
    a pivot of its own. *)
Lemma meteor_breaks_registry_claim :
  ~ (forall b, b ∈ planets (init sampleRandom sampleBuffer solarData) ->
       distance (data b) = Some 0
       \/ ((exists d, distance (data b) = Some d /\ 0 < d)
           /\ forall b',
                b' ∈ planets (init sampleRandom sampleBuffer solarData) ->
                orbitGroup b' = orbitGroup b -> b' = b)).
Proof.
  intros H. specialize (H (mkBody 7 5 Halley)).
  rewrite sample_registry in H.
  destruct H as [E|[(d & E & _) _]].
  - right. right. by left.
  - discriminate E.
  - discriminate E.
Qed.

Lemma angle_accumulation_linear_witness :
  mkBody 4 5 Earth
    ∈ planets (run [0.016] (init sampleRandom sampleBuffer solarData))
  /\ (exists r,
        rotationY (run [0.016] (init sampleRandom sampleBuffer solarData)) 5
        = Some r
        /\ rotationY
             (animate 2 (animate 1
                (run [0.016] (init sampleRandom sampleBuffer solarData)))) 5
           = Some (r + 0.018 * 5 * (1 + 2)))
  /\ (exists r s,
        rotationY (run [0.016] (init sampleRandom sampleBuffer solarData)) 5
        = Some r
        /\ rotationY
             (animate 1.0
                (run [0.016] (init sampleRandom sampleBuffer solarData))) 5
           = Some (r + 0.09)
        /\ rotationY (run [0.016] (init sampleRandom sampleBuffer solarData)) 4
           = Some s
        /\ rotationY
             (animate 1.0
                (run [0.016] (init sampleRandom sampleBuffer solarData))) 4
           = Some (s + 0.15)).
Proof.
  split; [apply solar_earth_in|].
  destruct (angle_accumulation_linear sampleRandom sampleBuffer
              solarData [0.016] _ (mkBody 4 5 Earth) 1 2 eq_refl
              (solar_earth_in _ _ _)) as (_ & H2 & H3).
  split.
  - apply (H2 11); [reflexivity | lra].
  - apply H3; reflexivity.
Defined.

Lemma static_pivot_witness :
  mkBody 2 3 Sun ∈ planets (init sampleRandom sampleBuffer solarData)
  /\ distance Sun = Some 0
  /\ rotationY (run [1; 0.5] (init sampleRandom sampleBuffer solarData)) 3
     = rotationY (init sampleRandom sampleBuffer solarData) 3.
Proof.
  split; [apply (solar_sun_in _ _ [])|]. split; [reflexivity|].
  apply (proj2 (static_pivot sampleRandom sampleBuffer solarData []
           _ (mkBody 2 3 Sun) [1; 0.5] eq_refl
           (solar_sun_in _ _ []) eq_refl)).
Defined.

Lemma camera_tracks_planet_witness :
  find isEarth (planets (init sampleRandom sampleBuffer solarData))
  = Some (mkBody 4 5 Earth)
  /\ target (animate 1 (init sampleRandom sampleBuffer solarData))
     = getWorldPosition (animate 1 (init sampleRandom sampleBuffer solarData)) 4.
Proof.
  assert (find isEarth (planets (init sampleRandom sampleBuffer solarData))
          = Some (mkBody 4 5 Earth)) as H
    by (rewrite sample_registry; reflexivity).
  split; [exact H|].
  apply (proj1 (proj2 (camera_tracks_planet sampleRandom sampleBuffer
           solarData [] _ 1 (mkBody 4 5 Earth) eq_refl H))).
Defined.

Lemma orbit_lines_static_witness :
  objects (init sampleRandom sampleBuffer solarData) !! 6%nat
  = Some (orbitLine 11)
  /\ objects (run [1; 0.5] (init sampleRandom sampleBuffer solarData)) !! 6%nat
     = Some (orbitLine 11).
Proof.
  pose proof (solar_orbit_line sampleRandom sampleBuffer []) as H.
  split; [exact H|].
  apply (proj1 (orbit_lines_static sampleRandom sampleBuffer solarData []
           _ [1; 0.5] 6 (orbitLine 11) eq_refl H I)).
Defined.

Lemma missing_tracked_planet_witness :
  (forall d, d ∈ [Sun] -> name d <> "Earth")
  /\ data <$> planets (init sampleRandom sampleBuffer [Sun]) = [Sun]
  /\ target (animate 1 (run [0.5] (init sampleRandom sampleBuffer [Sun])))
     = Some (vec 0 0 0).
Proof.
  assert (forall d, d ∈ [Sun] -> name d <> "Earth") as H.
  { intros d Hd. apply list_elem_of_singleton in Hd as ->. discriminate. }
  split; [exact H|].
  pose proof (missing_tracked_planet sampleRandom sampleBuffer [Sun] [0.5]
                _ 1 H eq_refl) as (_ & _ & H3 & _ & _ & H6).
  split; [exact H3 | exact H6].
Defined.

Lemma asteroid_mesh_displacement_witness :
  (forall n, 0 <= sampleRandom n < 1) /\ 0 <= 0.2
  /\ sampleBuffer 0.2 !! 0%nat = Some 0.2
  /\ exists positions off,
       kind (createAsteroidMesh sampleRandom sampleBuffer 0xADD8E6%Z 0.2
               emptyScene).1
       = Mesh (IcosahedronGeometry positions)
           (MeshPhongMaterial (Some 0xADD8E6%Z) None 5 true)
       /\ positions !! 0%nat = Some (0.2 + off)
       /\ -0.05 * 0.2 <= off <= 0.05 * 0.2.
Proof.
  split; [apply sampleRandom_range|]. split; [lra|]. split; [reflexivity|].
  destruct (asteroid_mesh_displacement sampleRandom sampleBuffer 0xADD8E6%Z
              0.2 emptyScene 0 0.2 sampleRandom_range ltac:(lra) eq_refl)
    as (positions & off & H1 & _ & H3 & _ & H5 & _).
  exists positions, off. split; [exact H1|]. split; [exact H3 | exact H5].
Defined.

(** ** Concrete instances of the further properties *)

Lemma unreferenced_node_untouched_witness :
  (forall b, b ∈ planets (init sampleRandom sampleBuffer solarData) ->
     mesh b <> 0%nat /\ orbitGroup b <> 0%nat)
  /\ objects (run [0.5; 1] (init sampleRandom sampleBuffer solarData)) !! 0%nat
     = objects (init sampleRandom sampleBuffer solarData) !! 0%nat.
Proof.
  assert (forall b, b ∈ planets (init sampleRandom sampleBuffer solarData) ->
            mesh b <> 0%nat /\ orbitGroup b <> 0%nat) as H.
  { intros b. rewrite sample_registry. intros Hb.
    repeat (apply elem_of_cons in Hb as [->|Hb]); simpl; try lia.
    by apply elem_of_nil in Hb. }
  split; [exact H|].
  apply (unreferenced_node_untouched [0.5; 1] _ 0 H).
Defined.

Lemma camera_target_in_step_witness :
  find isEarth (planets (run [0.5] (init sampleRandom sampleBuffer solarData)))
  = Some (mkBody 4 5 Earth)
  /\ target (run [0.5] (init sampleRandom sampleBuffer solarData))
     = getWorldPosition
         (run [0.5] (init sampleRandom sampleBuffer solarData)) 4.
Proof.
  assert (find isEarth
            (planets (run [0.5] (init sampleRandom sampleBuffer solarData)))
          = Some (mkBody 4 5 Earth)) as H
    by (rewrite sample_planets; reflexivity).
  split; [exact H|].
  apply (camera_target_in_step sampleRandom sampleBuffer solarData [0.5] _
           (mkBody 4 5 Earth) eq_refl H).
Defined.

Lemma body_stays_on_orbit_witness :
  mkBody 4 5 Earth
    ∈ planets (run [0.5; 1] (init sampleRandom sampleBuffer solarData))
  /\ distance Earth = Some 11
  /\ exists p,
       getWorldPosition
         (run [0.5; 1] (init sampleRandom sampleBuffer solarData)) 4 = Some p
       /\ vy p = 0 /\ vx p * vx p + vz p * vz p = 11 * 11.
Proof.
  split; [apply solar_earth_in|]. split; [reflexivity|].
  destruct (body_stays_on_orbit sampleRandom sampleBuffer solarData [0.5; 1]
              _ (mkBody 4 5 Earth) 11 eq_refl (solar_earth_in _ _ _) eq_refl)
    as (p & H1 & H2 & H3 & _).
  exists p. split; [exact H1|]. split; [exact H2 | exact H3].
Defined.

Lemma construction_of_entry_witness :
  (forall n, 0 <= sampleRandom n < 1)
  /\ otherCatalog !! 1%nat = Some Mars
  /\ exists b g,
       planets (init sampleRandom sampleBuffer otherCatalog) !! 1%nat = Some b
       /\ data b = Mars
       /\ objects (init sampleRandom sampleBuffer otherCatalog) !! orbitGroup b
          = Some g
       /\ rotation_y g = sampleRandom 1 * PI * 2
       /\ 0 <= rotation_y g < 2 * PI.
Proof.
  split; [apply sampleRandom_range|]. split; [reflexivity|].
  destruct (construction_of_entry sampleRandom sampleBuffer otherCatalog 1
              Mars sampleRandom_range eq_refl)
    as (b & m & g & H1 & H2 & _ & _ & _ & _ & H7 & H8 & H9).
  exists b, g. split; [exact H1|]. split; [exact H2|].
  split; [exact H7|]. split; [exact H8 | exact H9].
Defined.

Lemma meteor_follows_tracked_planet_witness :
  find namedEarth otherCatalog = Some Earth
  /\ distance Earth = Some 11
  /\ exists e h a,
       find isEarth
         (planets (run [0.5; 1] (init sampleRandom sampleBuffer otherCatalog)))
       = Some e
       /\ data e = Earth /\ data h = Halley
       /\ getWorldPosition
            (run [0.5; 1] (init sampleRandom sampleBuffer otherCatalog))
            (mesh h)
          = Some (rotateY a (vec (11 + 1.8) 0 0))
       /\ target (run [0.5; 1] (init sampleRandom sampleBuffer otherCatalog))
          = Some (rotateY a (vec 11 0 0)).
Proof.
  split; [reflexivity|]. split; [reflexivity|].
  destruct (meteor_follows_tracked_planet sampleRandom sampleBuffer
              otherCatalog [0.5; 1] _ Earth 11 eq_refl eq_refl eq_refl)
    as (e & h & a & H1 & H2 & _ & H4 & _ & _ & H7 & _ & H9).
  exists e, h, a. split; [exact H1|]. split; [exact H2|].
  split; [exact H4|]. split; [exact H7 | exact H9].
Defined.

Lemma angles_closed_form_witness :
  otherCatalog !! 1%nat = Some Mars
  /\ exists b,
       planets (run [0.5; 1] (init sampleRandom sampleBuffer otherCatalog))
         !! 1%nat = Some b
       /\ rotationY (run [0.5; 1] (init sampleRandom sampleBuffer otherCatalog))
            (mesh b)
          = Some (0.02 * 5 * elapsed [0.5; 1]).
Proof.
  split; [reflexivity|].
  destruct (angles_closed_form sampleRandom sampleBuffer otherCatalog
              [0.5; 1] 1 Mars eq_refl) as (b & H1 & _ & H3 & _).
  exists b. split; [exact H1 | exact H3].
Defined.
